(** * Texel tuning driver ([tools/tuning/tune.py]): a shallow embedding

    The development follows the layout of the Python module:
    - the data classes [TestPosition] and [TuningOption];
    - the list helpers [make_chunks] and [make_batches];
    - the error metric [calc_avg_error];
    - the engine session ([Engine], [run_engine]) and the scoring pass
      [run_pass];
    - the coordinate search of [main].

    Python integers are unbounded and are embedded as [Z]; Python floats
    are IEEE 754 binary64 numbers and are embedded as Rocq's primitive
    floats; exceptions are an explicit [Raise] result. *)

From Stdlib Require Import ZArith Floats String Ascii DecimalString Lia.
From stdpp Require Import base tactics option list.

#[local] Open Scope Z_scope.

(** ** Exceptions and fallible computations *)

(** The Python exceptions that the modelled code can raise. *)
Inductive exn : Set :=
  | ZeroDivisionError
  | ValueError
  | TypeError
  | IndexError
  | AssertionError
  | OverflowError
  | TimeoutExpired
  | SystemExit.

#[global] Instance exn_eq_dec : EqDecision exn.
Proof. solve_decision. Defined.

(** A computation that returns a value or raises. *)
Inductive Result (A : Type) : Type :=
  | Ok (a : A)
  | Raise (e : exn).
Arguments Ok {A} a.
Arguments Raise {A} e.

#[global] Instance Result_ret : MRet Result := fun _ a => Ok a.
#[global] Instance Result_bind : MBind Result := fun _ _ f m =>
  match m with
  | Ok a => f a
  | Raise e => Raise e
  end.

(** ** Python built-ins used by the list helpers *)

Module Py.

(** [len(range(start, stop, step))] for a positive step. *)
Definition range_len (start stop step : Z) : Z :=
  if start <? stop then (stop - start - 1) / step + 1 else 0.

(** [range(start, stop, step)]: a zero step raises [ValueError], a
    negative step counts downwards. *)
Definition range (start stop step : Z) : Result (list Z) :=
  if step =? 0 then Raise ValueError
  else
    let n := if 0 <? step then range_len start stop step
             else range_len stop start (- step) in
    Ok (map (fun k : nat => start + Z.of_nat k * step) (seq 0 (Z.to_nat n))).

(** Clamping of one slice bound to [0 .. len], negative bounds counting
    from the end. *)
Definition slice_bound (len i : Z) : Z :=
  if i <? 0 then Z.max 0 (i + len) else Z.min i len.

(** [l[i:j]]. *)
Definition slice {A} (l : list A) (i j : Z) : list A :=
  let len := Z.of_nat (length l) in
  let lo := slice_bound len i in
  let hi := slice_bound len j in
  take (Z.to_nat (hi - lo)) (drop (Z.to_nat lo) l).

End Py.

(** ** [make_chunks] and [make_batches] *)

(** [make_chunks(positions, chunk_size)]: the generator's items, in order.
<<
    max_length = len(positions)
    for i in range(0, max_length, chunk_size):
        yield positions[i:min(i + chunk_size, max_length)]
>> *)
Definition make_chunks {A} (positions : list A) (chunk_size : Z)
  : Result (list (list A)) :=
  let max_length := Z.of_nat (length positions) in
  starts ← Py.range 0 max_length chunk_size;
  Ok (map (fun i => Py.slice positions i (Z.min (i + chunk_size) max_length))
          starts).

(** [make_batches(positions, batch_count)].
<<
    max_length = len(positions)
    batch_size = max(1, max_length // batch_count)
    return make_chunks(positions, batch_size)
>>
    Integer division by zero raises. *)
Definition make_batches {A} (positions : list A) (batch_count : Z)
  : Result (list (list A)) :=
  let max_length := Z.of_nat (length positions) in
  if batch_count =? 0 then Raise ZeroDivisionError
  else
    let batch_size := Z.max 1 (max_length / batch_count) in
    make_chunks positions batch_size.

(** The number of chunks of size [cs] of a list of length [n], as
    [range(0, n, cs)] counts them. *)
Definition chunk_count (n cs : Z) : nat :=
  Z.to_nat (if 0 <? n then (n - 1) / cs + 1 else 0).

(** ** Strings

    A string is a sequence of code points below 256; the functions below
    are the Python string operations that the engine protocol uses. *)

Module PyStr.

#[local] Open Scope nat_scope.

(** [c.isspace()] on code points below 256. *)
Definition is_space (c : ascii) : bool :=
  let n := nat_of_ascii c in
  (9 <=? n) && (n <=? 13) || (28 <=? n) && (n <=? 32)
  || (n =? 133) || (n =? 160).

(** [s.rstrip()]. *)
Fixpoint rstrip (s : string) : string :=
  match s with
  | EmptyString => EmptyString
  | String c s' =>
      match rstrip s' with
      | EmptyString => if is_space c then EmptyString else String c EmptyString
      | r => String c r
      end
  end.

(** [s.lstrip()]. *)
Fixpoint lstrip (s : string) : string :=
  match s with
  | EmptyString => EmptyString
  | String c s' => if is_space c then lstrip s' else s
  end.

(** [sub in s]. *)
Fixpoint contains (sub s : string) : bool :=
  String.prefix sub s
  || match s with
     | EmptyString => false
     | String _ s' => contains sub s'
     end.

(** [s[n:]] for [n >= 0]. *)
Fixpoint drop_chars (n : nat) (s : string) : string :=
  match n, s with
  | O, _ => s
  | S _, EmptyString => EmptyString
  | S n', String _ s' => drop_chars n' s'
  end.

(** [s.split(sep)] for a separator of one character. *)
Fixpoint split (sep : ascii) (s : string) : list string :=
  match s with
  | EmptyString => [EmptyString]
  | String c s' =>
      if Ascii.eqb c sep then EmptyString :: split sep s'
      else match split sep s' with
           | hd :: tl => String c hd :: tl
           | [] => [String c EmptyString]
           end
  end.

Definition digit_value (c : ascii) : option Z :=
  let n := nat_of_ascii c in
  if (48 <=? n) && (n <=? 57) then Some (Z.of_nat (n - 48)) else None.

(** The digits of a decimal literal: at least one digit, single
    underscores allowed between digits only. *)
Fixpoint digits (acc : Z) (after_digit : bool) (s : string) : option Z :=
  match s with
  | EmptyString => if after_digit then Some acc else None
  | String c s' =>
      match digit_value c with
      | Some d => digits (10 * acc + d)%Z true s'
      | None =>
          if Ascii.eqb c "_" && after_digit then digits acc false s'
          else None
      end
  end.

(** [int(s)] in base ten: surrounding white space, an optional sign,
    digits. Anything else raises [ValueError]. *)
Definition int (s : string) : Result Z :=
  let body := rstrip (lstrip s) in
  let signed :=
    match body with
    | String "-" rest => (-1, rest)%Z
    | String "+" rest => (1%Z, rest)
    | _ => (1%Z, body)
    end in
  match digits 0 false signed.2 with
  | Some n => Ok (signed.1 * n)%Z
  | None => Raise ValueError
  end.

(** [str(n)], as [format] renders an integer. *)
Definition of_int (n : Z) : string := NilZero.string_of_int (Z.to_int n).

(** The line terminator. *)
Definition newline : string := String (ascii_of_nat 10) EmptyString.

End PyStr.

(** [l[i]]: a negative index counts from the end, an index outside the
    list raises [IndexError]. *)
Definition getitem {A} (l : list A) (i : Z) : Result A :=
  let len := Z.of_nat (length l) in
  let j := if i <? 0 then i + len else i in
  if (0 <=? j) && (j <? len)
  then match l !! Z.to_nat j with
       | Some x => Ok x
       | None => Raise IndexError
       end
  else Raise IndexError.

(** ** Floats *)

Module PyFloat.

(** [float(n)] for an integer [n]: round to nearest even; an integer
    beyond the finite doubles raises [OverflowError]. *)
Definition of_int (n : Z) : Result float :=
  let f := SF2Prim (SpecFloat.binary_normalize 53 1024 n 0 false) in
  if PrimFloat.is_infinity f then Raise OverflowError else Ok f.

(** [a / b]: a zero divisor raises. *)
Definition div (a b : float) : Result float :=
  if PrimFloat.eqb b 0 then Raise ZeroDivisionError else Ok (a / b)%float.

End PyFloat.

(** Scaling factor (calculated for Wasabi Chess engine). *)
#[warnings="-inexact-float"]
Definition K : float := 1.342224%float.

(** ** Data classes *)

Record TestPosition : Set := mkTestPosition {
  fen : string;
  result : float;
  score : Z
}.

(** [TestPosition(fen, result)]: the score defaults to 0. *)
Definition new_TestPosition (fen : string) (result : float) : TestPosition :=
  mkTestPosition fen result 0.

Definition set_score (s : Z) (p : TestPosition) : TestPosition :=
  mkTestPosition (fen p) (result p) s.

Record TuningOption : Set := mkTuningOption {
  name : string;
  value : Z;
  is_part : bool;
  orig_name : string;
  steps : Z;             (* 4 ^ n (e.g. 1/4/16/64/...) *)
  direction : Z;
  improvements : Z;
  iterations : Z;
  remaining_skips : Z;   (* Skip this option for 'remaining_skips' iterations *)
  skip_count : Z         (* How many times this option has already been skipped *)
}.

(** [TuningOption(name, value, is_part, orig_name)] with the defaults of
    the data class for every other field. *)
Definition new_TuningOption (name : string) (value : Z) (is_part : bool)
    (orig_name : string) : TuningOption :=
  mkTuningOption name value is_part orig_name 16 1 0 0 0 0.

Definition set_value (v : Z) (o : TuningOption) : TuningOption :=
  mkTuningOption (name o) v (is_part o) (orig_name o) (steps o) (direction o)
    (improvements o) (iterations o) (remaining_skips o) (skip_count o).
Definition set_steps (v : Z) (o : TuningOption) : TuningOption :=
  mkTuningOption (name o) (value o) (is_part o) (orig_name o) v (direction o)
    (improvements o) (iterations o) (remaining_skips o) (skip_count o).
Definition set_direction (v : Z) (o : TuningOption) : TuningOption :=
  mkTuningOption (name o) (value o) (is_part o) (orig_name o) (steps o) v
    (improvements o) (iterations o) (remaining_skips o) (skip_count o).
Definition set_improvements (v : Z) (o : TuningOption) : TuningOption :=
  mkTuningOption (name o) (value o) (is_part o) (orig_name o) (steps o)
    (direction o) v (iterations o) (remaining_skips o) (skip_count o).
Definition set_iterations (v : Z) (o : TuningOption) : TuningOption :=
  mkTuningOption (name o) (value o) (is_part o) (orig_name o) (steps o)
    (direction o) (improvements o) v (remaining_skips o) (skip_count o).
Definition set_remaining_skips (v : Z) (o : TuningOption) : TuningOption :=
  mkTuningOption (name o) (value o) (is_part o) (orig_name o) (steps o)
    (direction o) (improvements o) (iterations o) v (skip_count o).
Definition set_skip_count (v : Z) (o : TuningOption) : TuningOption :=
  mkTuningOption (name o) (value o) (is_part o) (orig_name o) (steps o)
    (direction o) (improvements o) (iterations o) (remaining_skips o) v.

(** ** [calc_avg_error] *)

Section CalcAvgError.

(** [x ** y] on floats is the platform's [pow]; its values are not fixed
    by the language, so the function is a parameter. It can raise
    [OverflowError]. *)
Variable float_pow : float -> float -> Result float.

(** The body of the loop, for one position.
<<
  win_probability = 1.0 / (1.0 + 10.0 ** (-pos.score * k / 400.0))
  error = pos.result - win_probability
  error *= error
>> *)
Definition position_error (k : float) (pos : TestPosition) : Result float :=
  s ← PyFloat.of_int (- score pos);
  p ← float_pow 10 (s * k / 400)%float;
  win_probability ← PyFloat.div 1 (1 + p)%float;
  let error := (result pos - win_probability)%float in
  Ok (error * error)%float.

(** The loop [for pos in positions: ... errors += error]. *)
Fixpoint sum_errors (k : float) (positions : list TestPosition)
    (errors : float) : Result float :=
  match positions with
  | [] => Ok errors
  | pos :: rest =>
      error ← position_error k pos;
      sum_errors k rest (errors + error)%float
  end.

Definition calc_avg_error (k : float) (positions : list TestPosition)
  : Result float :=
  errors ← sum_errors k positions 0%float;
  n ← PyFloat.of_int (Z.of_nat (length positions));
  PyFloat.div errors n.

End CalcAvgError.

(** ** Engine sessions *)

(** One external engine process, seen from the driver: what has been
    written to its standard input, the lines it will still write to its
    standard output (the stream ends after them), whether it exits within
    the grace period when told to quit, and whether it is still running. *)
Record Engine : Set := mkEngine {
  stdin_log : list string;
  stdout : list string;
  exits_on_quit : bool;
  running : bool
}.

(** [engine.send_command(cmd)]: [self.process.stdin.write(cmd + "\n")]. *)
Definition Engine_send_command (cmd : string) (e : Engine) : Engine :=
  mkEngine (stdin_log e ++ [(cmd ++ PyStr.newline)%string]) (stdout e)
    (exits_on_quit e) (running e).

(** The loop of [wait_for_command] over the lines of the stream: the first
    line that contains [cmd], stripped, and the lines left unread; [None]
    when the stream ends first (the method then returns [None]). *)
Fixpoint scan_lines (cmd : string) (lines : list string)
  : option string * list string :=
  match lines with
  | [] => (None, [])
  | line :: rest =>
      let line := PyStr.rstrip line in
      if PyStr.contains cmd line then (Some line, rest)
      else scan_lines cmd rest
  end.

(** [engine.wait_for_command(cmd)]. *)
Definition Engine_wait_for_command (cmd : string) (e : Engine)
  : option string * Engine :=
  let '(line, rest) := scan_lines cmd (stdout e) in
  (line, mkEngine (stdin_log e) rest (exits_on_quit e) (running e)).

(** [engine.stop()].
<<
    self.process.communicate("quit\n", timeout=2)
    self.process.kill()
    self.process.communicate()
>>
    [communicate] raises [TimeoutExpired] when the process has not exited
    after the timeout; the two statements after it are then not reached. *)
Definition Engine_stop (e : Engine) : Result unit * Engine :=
  let sent := stdin_log e ++ [("quit" ++ PyStr.newline)%string] in
  if exits_on_quit e
  then (Ok tt, mkEngine sent [] (exits_on_quit e) false)
  else (Raise TimeoutExpired, mkEngine sent (stdout e) (exits_on_quit e) (running e)).

(** A [TestPosition] object is named by its place in the corpus list; a
    batch or a chunk is a list of such references, so that a write to
    [chunk[i].score] is a write to the object the corpus holds. *)
Definition ref := nat.

(** The computations of [run_engine]: they act on the session and on the
    position objects, and can raise; the state reached when an exception is
    raised is kept. *)
Definition Run (A : Type) : Type :=
  Engine * list TestPosition -> Result A * (Engine * list TestPosition).

#[global] Instance Run_ret : MRet Run := fun _ a s => (Ok a, s).
#[global] Instance Run_bind : MBind Run := fun _ _ f m s =>
  match m s with
  | (Ok a, s') => f a s'
  | (Raise e, s') => (Raise e, s')
  end.

Definition Run_raise {A} (e : exn) : Run A := fun s => (Raise e, s).

Definition Run_lift {A} (r : Result A) : Run A := fun s => (r, s).

Definition send_command (cmd : string) : Run unit := fun s =>
  (Ok tt, (Engine_send_command cmd s.1, s.2)).

Definition wait_for_command (cmd : string) : Run (option string) := fun s =>
  let '(line, e) := Engine_wait_for_command cmd s.1 in (Ok line, (e, s.2)).

(** [pos.fen] *)
Definition read_fen (pos : ref) : Run string := fun s =>
  (Ok (from_option fen EmptyString (s.2 !! pos)), s).

(** [pos.score = v] *)
Definition write_score (pos : ref) (v : Z) : Run unit := fun s =>
  (Ok tt, (s.1, alter (set_score v) pos s.2)).

(** A [for] loop whose body is run for its effects. *)
Fixpoint for_each {A} (l : list A) (body : A -> Run unit) : Run unit :=
  match l with
  | [] => mret tt
  | x :: rest => body x;; for_each rest body
  end.

(** The request line of one chunk.
<<
    fens = "eval "
    is_first = True
    for pos in chunk:
        if not is_first:
            fens += ";"
        fens += pos.fen
        is_first = False
>> *)
Fixpoint eval_request (chunk : list ref) (is_first : bool) (fens : string)
  : Run string :=
  match chunk with
  | [] => mret fens
  | pos :: rest =>
      let fens := if is_first then fens else (fens ++ ";")%string in
      f ← read_fen pos;
      eval_request rest false (fens ++ f)%string
  end.

(** [[int(score) for score in result[len("scores "):].split(";")]]; a
    [result] of [None] cannot be sliced. *)
Definition parse_scores (result : option string) : Result (list Z) :=
  match result with
  | None => Raise TypeError
  | Some line =>
      mapM (M := Result)
        PyStr.int (PyStr.split ";" (PyStr.drop_chars (String.length "scores ") line))
  end.

(** The body of the outer loop of [run_engine], for one chunk. *)
Definition score_chunk (chunk : list ref) : Run unit :=
  fens ← eval_request chunk true "eval ";
  send_command fens;;
  result ← wait_for_command "scores";
  scores ← Run_lift (parse_scores result);
  (if decide (length scores = length chunk)
   then mret tt else Run_raise AssertionError);;
  for_each (seq 0 (length scores)) (fun i =>
    match chunk !! i, scores !! i with
    | Some pos, Some v => write_score pos v
    | _, _ => Run_raise IndexError
    end).

(** The statements inside the [try] of [run_engine]. *)
Definition run_engine_body (tuning_options : list TuningOption)
    (test_positions : list ref) : Run unit :=
  send_command "uci";;
  wait_for_command "uciok";;
  for_each tuning_options (fun option =>
    send_command ("setoption name " ++ name option ++ " value "
                  ++ PyStr.of_int (value option)));;
  send_command "isready";;
  wait_for_command "readyok";;
  chunks ← Run_lift (make_chunks test_positions 100);
  for_each chunks score_chunk.

(** [run_engine(engine, tuning_options, test_positions)].
<<
    results = []
    try: ...
    except subprocess.TimeoutExpired as error:
        engine.stop()
        raise error
    except Exception as error:
        log.error(str(error))
    return results
>>
    [SystemExit] is not an [Exception]; logging is not modelled. *)
Definition run_engine (tuning_options : list TuningOption)
    (test_positions : list ref) : Run (list Z) := fun s =>
  match run_engine_body tuning_options test_positions s with
  | (Ok _, s') => (Ok [], s')
  | (Raise TimeoutExpired, s') =>
      match Engine_stop s'.1 with
      | (Ok _, e) => (Raise TimeoutExpired, (e, s'.2))
      | (Raise err, e) => (Raise err, (e, s'.2))
      end
  | (Raise SystemExit, s') => (Raise SystemExit, s')
  | (Raise _, s') => (Ok [], s')
  end.

(** ** The scoring pass *)

(** What [run_pass] acts on: the engine sessions (the list [engines]) and
    the position objects of the corpus (the list [test_positions]). *)
Record PassState : Set := mkPassState {
  engines : list Engine;
  positions : list TestPosition
}.

(** The values that are passed to a submitted call. An engine is passed
    by reference, as its place in [engines]. *)
Inductive PyArg : Set :=
  | ArgEngine (engine : nat)
  | ArgInt (n : Z)
  | ArgOptions (tuning_options : list TuningOption)
  | ArgPositions (test_positions : list ref).

(** The state of a future once its call has ended. *)
Inductive Future : Set :=
  | Returned (results : list Z)
  | Raised (e : exn)
  | Cancelled.

Definition Future_cancelled (f : Future) : bool :=
  match f with
  | Cancelled => true
  | _ => false
  end.

(** Binding of positional arguments to the three parameters of
    [run_engine]: any other number of arguments raises [TypeError] before
    the body is entered. *)
Definition bind_run_engine_params (args : list PyArg)
  : Result (PyArg * PyArg * PyArg) :=
  match args with
  | [engine; tuning_options; test_positions] =>
      Ok (engine, tuning_options, test_positions)
  | _ => Raise TypeError
  end.

(** The call of [run_engine] on the submitted arguments, made by a worker
    of the pool, and the
    future it completes. The program only ever passes a session, a list of
    options and a list of positions for the three parameters; the last
    case stands for values of other types and is not reached. *)
Definition call_run_engine (args : list PyArg) (st : PassState)
  : Future * PassState :=
  match bind_run_engine_params args with
  | Raise e => (Raised e, st)
  | Ok (ArgEngine i, ArgOptions tuning_options, ArgPositions test_positions) =>
      match engines st !! i with
      | Some engine =>
          let '(r, (engine', positions')) :=
            run_engine tuning_options test_positions (engine, positions st) in
          (match r with Ok results => Returned results | Raise e => Raised e end,
           mkPassState (<[i := engine']> (engines st)) positions')
      | None => (Raised TypeError, st)
      end
  | Ok _ => (Raised TypeError, st)
  end.

(** The submitting loop of [run_pass]. The batches work on disjoint
    positions and on sessions of their own, so the calls are run one after
    the other, in the order of submission.
<<
    worker_id = 1
    for batch in make_batches(test_positions, config.concurrent_workers):
        engine = engines[worker_id - 1]
        futures.append(executor.submit(run_engine, engine, worker_id,
                                       config.tuning_options, batch))
        worker_id += 1
>> *)
Fixpoint submit_batches (tuning_options : list TuningOption)
    (batches : list (list ref)) (worker_id : Z) (futures : list Future)
    (st : PassState) : Result (list Future) * PassState :=
  match batches with
  | [] => (Ok futures, st)
  | batch :: rest =>
      match getitem (seq 0 (length (engines st))) (worker_id - 1) with
      | Raise e => (Raise e, st)
      | Ok engine =>
          let '(future, st') :=
            call_run_engine [ArgEngine engine; ArgInt worker_id;
                             ArgOptions tuning_options; ArgPositions batch] st in
          submit_batches tuning_options rest (worker_id + 1)
            (futures ++ [future]) st'
      end
  end.

(** The loop over the completed futures.
<<
    for future in as_completed(futures):
        if future.cancelled():
            sys.exit("Worker was cancelled - ...")
>> *)
Fixpoint await_futures (futures : list Future) : Result unit :=
  match futures with
  | [] => Ok tt
  | future :: rest =>
      if Future_cancelled future then Raise SystemExit
      else await_futures rest
  end.

Section RunPass.

Variable float_pow : float -> float -> Result float.

(** [run_pass(config, k, engines, test_positions)]; of [config] the
    function reads [concurrent_workers] and [tuning_options]. *)
(** The statements of [run_pass] after the submitting loop: the wait
    for the futures, then [e = calc_avg_error(k, test_positions)] and
    [return e]. *)
Definition complete_pass (k : float) (futures : list Future)
    (st : PassState) : Result float * PassState :=
  match await_futures futures with
  | Raise e => (Raise e, st)
  | Ok _ => (calc_avg_error float_pow k (positions st), st)
  end.

Definition run_pass (concurrent_workers : Z)
    (tuning_options : list TuningOption) (k : float) (st : PassState)
  : Result float * PassState :=
  let test_positions := seq 0 (length (positions st)) in
  match make_batches test_positions concurrent_workers with
  | Raise e => (Raise e, st)
  | Ok batches =>
      match submit_batches tuning_options batches 1 [] st with
      | (Raise e, st') => (Raise e, st')
      | (Ok futures, st') => complete_pass k futures st'
      end
  end.

End RunPass.

(** The sessions [main] starts: one more than [concurrent_workers].
<<
    engines = []
    for i in range(config.concurrent_workers + 1):
        engine = Engine(config.engine_cmd)
        engines.append(engine)
>>
    [spawn i] is the process started by the [i]-th call of [Engine]. *)
Definition start_engines (spawn : nat -> Engine) (concurrent_workers : Z)
  : list Engine :=
  map spawn (seq 0 (Z.to_nat (concurrent_workers + 1))).

(** The [finally] clause of [main]: [for engine in engines: engine.stop()].
    An exception leaves the loop. *)
Fixpoint stop_engines (engines : list Engine) : Result unit * list Engine :=
  match engines with
  | [] => (Ok tt, [])
  | engine :: rest =>
      match Engine_stop engine with
      | (Raise e, engine') => (Raise e, engine' :: rest)
      | (Ok _, engine') =>
          let '(r, rest') := stop_engines rest in (r, engine' :: rest')
      end
  end.

(** ** The coordinate search of [main] *)

(** The variables of [main] that the search loop reads and writes.
    [best_options] is either the very list object that
    [config.tuning_options] names ([None], after the assignment
    [config.tuning_options = best_options]) or a list of its own
    ([Some l], after [copy.deepcopy]). [world] is whatever [run_pass] acts
    on. *)
Record Tuner (World : Type) : Type := mkTuner {
  tuning_options : list TuningOption;
  best_options : option (list TuningOption);
  best_err : float;
  improved : bool;
  retry_postponed : bool;
  world : World
}.
Arguments mkTuner {World}.
Arguments tuning_options {World}.
Arguments best_options {World}.
Arguments best_err {World}.
Arguments improved {World}.
Arguments retry_postponed {World}.
Arguments world {World}.

(** The options that [best_options] holds. *)
Definition best_list {World} (t : Tuner World) : list TuningOption :=
  match best_options t with
  | None => tuning_options t
  | Some l => l
  end.

(** The path that the body of the [for] loop takes for one option. *)
Inductive Branch : Set :=
  | Skipped            (* remaining_skips > 0: continue *)
  | ImprovedForward    (* the first trial lowered best_err *)
  | ImprovedBackward   (* the second trial lowered best_err *)
  | StepReduced        (* no improvement, steps > 1 *)
  | Postponed.         (* no improvement at the smallest step *)

#[global] Instance Branch_eq_dec : EqDecision Branch.
Proof. solve_decision. Defined.

(** The statements of the search: they act on the variables of [main] and
    can raise. *)
Definition Search (World A : Type) : Type :=
  Tuner World -> Result A * Tuner World.

#[global] Instance Search_ret {World} : MRet (Search World) :=
  fun _ a t => (Ok a, t).
#[global] Instance Search_bind {World} : MBind (Search World) :=
  fun _ _ f m t =>
    match m t with
    | (Ok a, t') => f a t'
    | (Raise e, t') => (Raise e, t')
    end.

Section Orchestrator.

Context {World : Type}.

(** [run_pass(config, K, engines, test_positions)] as the search sees
    it: a function of the current [config.tuning_options]. *)
Variable run_pass : list TuningOption -> World -> Result float * World.

(** [config.tuning_options[i]] *)
Definition get_option (i : nat) : Search World TuningOption := fun t =>
  match tuning_options t !! i with
  | Some o => (Ok o, t)
  | None => (Raise IndexError, t)
  end.

(** An assignment to a field of [config.tuning_options[i]]. When
    [best_options] is the same list, it sees the assignment. *)
Definition modify_option (i : nat) (f : TuningOption -> TuningOption)
  : Search World unit := fun t =>
  match tuning_options t !! i with
  | Some o =>
      (Ok tt, mkTuner (<[i := f o]> (tuning_options t)) (best_options t)
                (best_err t) (improved t) (retry_postponed t) (world t))
  | None => (Raise IndexError, t)
  end.

(** An assignment to a field of [best_options[i]]. *)
Definition modify_best (i : nat) (f : TuningOption -> TuningOption)
  : Search World unit := fun t =>
  match best_options t with
  | None => modify_option i f t
  | Some l =>
      match l !! i with
      | Some o =>
          (Ok tt, mkTuner (tuning_options t) (Some (<[i := f o]> l))
                    (best_err t) (improved t) (retry_postponed t) (world t))
      | None => (Raise IndexError, t)
      end
  end.

Definition get_best_err : Search World float := fun t => (Ok (best_err t), t).

Definition put_best_err (e : float) : Search World unit := fun t =>
  (Ok tt, mkTuner (tuning_options t) (best_options t) e (improved t)
            (retry_postponed t) (world t)).

Definition put_improved (b : bool) : Search World unit := fun t =>
  (Ok tt, mkTuner (tuning_options t) (best_options t) (best_err t) b
            (retry_postponed t) (world t)).

(** [best_options = copy.deepcopy(config.tuning_options)] *)
Definition snapshot : Search World unit := fun t =>
  (Ok tt, mkTuner (tuning_options t) (Some (tuning_options t)) (best_err t)
            (improved t) (retry_postponed t) (world t)).

(** [run_pass(config, K, engines, test_positions)] *)
Definition call_run_pass : Search World float := fun t =>
  let '(r, w) := run_pass (tuning_options t) (world t) in
  (r, mkTuner (tuning_options t) (best_options t) (best_err t) (improved t)
        (retry_postponed t) w).

(** The statements both improving branches share.
<<
  option.improvements += 1
  option.skip_count = 0
  best_options = copy.deepcopy(config.tuning_options)
  improved = True
>> *)
Definition commit (i : nat) : Search World unit :=
  modify_option i (fun o => set_improvements (improvements o + 1) o);;
  modify_option i (set_skip_count 0);;
  snapshot;;
  put_improved true.

(** The last [else] of the loop body: no trial improved. *)
Definition no_improvement (i : nat) (prev_value : Z) : Search World Branch :=
  modify_option i (set_value prev_value);;
  option ← get_option i;
  if 1 <? steps option then
    (* No improvement at the current 'step' level => decrease step level *)
    modify_option i (fun o => set_steps (Z.shiftr (steps o) 2) o);;
    option ← get_option i;
    (if (1 <? iterations option) && (improvements option =? 0)
     then modify_option i (set_steps 1)
     else mret tt);;
    option ← get_option i;
    modify_best i (set_steps (steps option));;
    mret StepReduced
  else
    (* No improvement at smallest 'step' level => skip this option for a
       couple iterations *)
    modify_option i (fun o => set_skip_count (skip_count o + 1) o);;
    modify_option i (fun o =>
      set_remaining_skips (remaining_skips o + 8 * skip_count o) o);;
    option ← get_option i;
    modify_best i (set_remaining_skips (remaining_skips option));;
    option ← get_option i;
    modify_best i (set_skip_count (skip_count option));;
    mret Postponed.

(** The body of [for i in range(len(config.tuning_options))], lines
    300 to 347 of the module. *)
Definition tune_option (i : nat) : Search World Branch :=
  modify_option i (fun o => set_iterations (iterations o + 1) o);;
  option ← get_option i;
  modify_best i (set_iterations (iterations option));;
  option ← get_option i;
  if 0 <? remaining_skips option then
    modify_option i (fun o => set_remaining_skips (remaining_skips o - 1) o);;
    option ← get_option i;
    modify_best i (set_remaining_skips (remaining_skips option));;
    mret Skipped
  else
    option ← get_option i;
    let prev_value := value option in
    modify_option i (fun o => set_value (prev_value + steps o * direction o) o);;
    new_err ← call_run_pass;
    best ← get_best_err;
    if (new_err <? best)%float then
      put_best_err new_err;;
      commit i;;
      mret ImprovedForward
    else
      modify_option i (fun o =>
        set_value (prev_value + steps o * - direction o) o);;
      new_err ← call_run_pass;
      best ← get_best_err;
      if (new_err <? best)%float then
        put_best_err new_err;;
        modify_option i (fun o => set_direction (- direction o) o);;
        commit i;;
        mret ImprovedBackward
      else
        no_improvement i prev_value.

(** The [for] loop over the places of the options; it returns the paths
    taken, in order. *)
Fixpoint tune_options (places : list nat) : Search World (list Branch) :=
  match places with
  | [] => mret []
  | i :: rest =>
      b ← tune_option i;
      bs ← tune_options rest;
      mret (b :: bs)
  end.

(** The head of the [while] body.
<<
  improved = False
  config.tuning_options = best_options
  write_options(best_options)
>>
  The file that [write_options] writes is not modelled. *)
Definition begin_pass (t : Tuner World) : Tuner World :=
  mkTuner (best_list t) None (best_err t) false (retry_postponed t) (world t).

(** The loop [for option in best_options] of the postponed check.
<<
  option.steps = 1
  if option.remaining_skips > 0:
      option.remaining_skips = 0
      any_postponed = True
>> *)
Fixpoint reset_postponed (best : list TuningOption) (any_postponed : bool)
  : list TuningOption * bool :=
  match best with
  | [] => ([], any_postponed)
  | option :: rest =>
      let option := set_steps 1 option in
      let '(option, any_postponed) :=
        if 0 <? remaining_skips option
        then (set_remaining_skips 0 option, true)
        else (option, any_postponed) in
      let '(rest, any_postponed) := reset_postponed rest any_postponed in
      (option :: rest, any_postponed)
  end.

(** The tail of the [while] body, lines 349 to 361. *)
Definition check_postponed (t : Tuner World) : Tuner World :=
  if negb (improved t) && negb (retry_postponed t) then
    let '(best, any_postponed) := reset_postponed (best_list t) false in
    match best_options t with
    | None => mkTuner best None (best_err t) any_postponed true (world t)
    | Some _ =>
        mkTuner (tuning_options t) (Some best) (best_err t) any_postponed
          true (world t)
    end
  else
    mkTuner (tuning_options t) (best_options t) (best_err t) (improved t)
      false (world t).

(** One turn of the [while] loop. *)
Definition tuning_pass (t : Tuner World) : Result (list Branch) * Tuner World :=
  let t := begin_pass t in
  match tune_options (seq 0 (length (tuning_options t))) t with
  | (Ok bs, t') => (Ok bs, check_postponed t')
  | (Raise e, t') => (Raise e, t')
  end.

(** [while improved: ...], for at most [fuel] turns; [None] when the
    loop has not ended by then. *)
Fixpoint tuning_loop (fuel : nat) (t : Tuner World)
  : option (Result unit * Tuner World) :=
  if improved t then
    match fuel with
    | O => None
    | S fuel' =>
        match tuning_pass t with
        | (Ok _, t') => tuning_loop fuel' t'
        | (Raise e, t') => Some (Raise e, t')
        end
    end
  else Some (Ok tt, t).

(** The variables as [main] sets them before the loop.
<<
  best_err = run_pass(config, K, engines, test_positions)
  best_options = copy.deepcopy(config.tuning_options)
  retry_postponed = False
  improved = True
>> *)
Definition init_tuner (options : list TuningOption) (err : float)
    (w : World) : Tuner World :=
  mkTuner options (Some options) err true false w.

End Orchestrator.

(** [main], from the start of the engines on. The configuration and the
    corpus are read from files by code that is not modelled; they are
    arguments here. [None] when the search loop has not ended after
    [fuel] turns. *)
Definition main (float_pow : float -> float -> Result float)
    (spawn : nat -> Engine) (fuel : nat) (concurrent_workers : Z)
    (options : list TuningOption) (test_positions : list TestPosition)
  : option (Result (list TuningOption) * PassState) :=
  let pass := fun opts => run_pass float_pow concurrent_workers opts K in
  let st := mkPassState (start_engines spawn concurrent_workers) test_positions in
  let tried :=
    match pass options st with
    | (Raise e, st') => Some (Raise e, st')
    | (Ok err, st') =>
        match tuning_loop pass fuel (init_tuner options err st') with
        | None => None
        | Some (Raise e, t) => Some (Raise e, world t)
        | Some (Ok _, t) => Some (Ok (best_list t), world t)
        end
    end in
  match tried with
  | None => None
  | Some (r, st') =>
      match stop_engines (engines st') with
      | (Raise e, es) => Some (Raise e, mkPassState es (positions st'))
      | (Ok _, es) => Some (r, mkPassState es (positions st'))
      end
  end.

(** ** The search as a transition system *)

Section Transitions.

Context {World : Type}.
Variable run_pass : list TuningOption -> World -> Result float * World.

(** What happens between two states of the search: the head of a
    [while] turn, the loop body for the option at place [i] (with the
    path it took), or the postponed check at the end of a turn. *)
Inductive Event : Set :=
  | EvBegin
  | EvOption (i : nat) (b : Branch)
  | EvCheck.

Inductive step : Tuner World -> Event -> Tuner World -> Prop :=
  | step_begin t :
      step t EvBegin (begin_pass t)
  | step_option t i b t' :
      tune_option run_pass i t = (Ok b, t') ->
      step t (EvOption i b) t'
  | step_check t :
      step t EvCheck (check_postponed t).

(** An option as the configuration creates it. *)
Definition fresh (o : TuningOption) : Prop :=
  steps o = 16 /\ direction o = 1 /\ improvements o = 0 /\ iterations o = 0
  /\ remaining_skips o = 0 /\ skip_count o = 0.

(** The states the search can be in: from the variables as [main] sets
    them before the loop, any number of transitions. *)
Inductive reachable : Tuner World -> Prop :=
  | reach_init options err w :
      Forall fresh options ->
      reachable (init_tuner options err w)
  | reach_step t ev t' :
      reachable t -> step t ev t' -> reachable t'.

(** The number of failures at the smallest step that the option at place
    [i] has had in a row since its last improvement, after one more
    event. *)
Definition streak_after (i : nat) (k : nat) (ev : Event) : nat :=
  match ev with
  | EvOption j b =>
      if decide (j = i) then
        match b with
        | Postponed => S k
        | ImprovedForward | ImprovedBackward => O
        | Skipped | StepReduced => k
        end
      else k
  | EvBegin | EvCheck => k
  end.

(** [streak i k t]: the search has reached [t], and the option at place
    [i] has failed [k] times in a row at the smallest step since it last
    improved (or since the start). *)
Inductive streak (i : nat) : nat -> Tuner World -> Prop :=
  | streak_init options err w :
      Forall fresh options ->
      streak i O (init_tuner options err w)
  | streak_step k t ev t' :
      streak i k t -> step t ev t' ->
      streak i (streak_after i k ev) t'.

(** The option record that the loop body leaves behind on each path. *)
Definition after_branch (b : Branch) (o : TuningOption) : TuningOption :=
  let o := set_iterations (iterations o + 1) o in
  match b with
  | Skipped => set_remaining_skips (remaining_skips o - 1) o
  | ImprovedForward =>
      set_skip_count 0 (set_improvements (improvements o + 1)
        (set_value (value o + steps o * direction o) o))
  | ImprovedBackward =>
      set_skip_count 0 (set_improvements (improvements o + 1)
        (set_direction (- direction o)
          (set_value (value o + steps o * - direction o) o)))
  | StepReduced =>
      set_steps (if (1 <? iterations o) && (improvements o =? 0) then 1
                 else Z.shiftr (steps o) 2) o
  | Postponed =>
      set_remaining_skips (remaining_skips o + 8 * (skip_count o + 1))
        (set_skip_count (skip_count o + 1) o)
  end.

(** The option lists of the trials of the loop body at place [i]. *)
Definition first_trial (i : nat) (o : TuningOption)
    (options : list TuningOption) : list TuningOption :=
  <[i := set_value (value o + steps o * direction o)
           (set_iterations (iterations o + 1) o)]> options.

Definition second_trial (i : nat) (o : TuningOption)
    (options : list TuningOption) : list TuningOption :=
  <[i := set_value (value o + steps o * - direction o)
           (set_iterations (iterations o + 1) o)]> options.


(** What holds of every option in every state of the search. *)
Definition option_ok (o : TuningOption) : Prop :=
  (steps o = 16 \/ steps o = 4 \/ steps o = 1)
  /\ 0 <= remaining_skips o /\ 0 <= skip_count o.

(** [best_options] holds what [config.tuning_options] holds, in a list
    of its own only after an improvement. *)
Definition best_in_step (t : Tuner World) : Prop :=
  match best_options t with
  | None => True
  | Some l => l = tuning_options t /\ improved t = true
  end.

Definition search_inv (t : Tuner World) : Prop :=
  best_in_step t /\ Forall option_ok (tuning_options t).

End Transitions.

Section BranchSpec.
Context {World : Type}.
Variable run_pass : list TuningOption -> World -> Result float * World.

(** Both trials of the loop body at place [i] ran and neither lowered
    [best_err]; [w'] is what the second pass left. *)
Definition trials_failed (i : nat) (o : TuningOption) (t : Tuner World)
    (w' : World) : Prop :=
  exists e1 w1 e2,
    run_pass (first_trial i o (tuning_options t)) (world t) = (Ok e1, w1)
    /\ (e1 <? best_err t)%float = false
    /\ run_pass (second_trial i o (tuning_options t)) w1 = (Ok e2, w')
    /\ (e2 <? best_err t)%float = false.

(** Nothing was committed between [t] and [t']. *)
Definition nothing_committed (t t' : Tuner World) : Prop :=
  best_err t' = best_err t /\ improved t' = improved t
  /\ (best_options t' = None <-> best_options t = None).

(** What each path of the loop body at place [i] presupposes and leaves
    behind, beside the option record itself. *)
Definition branch_spec (i : nat) (o : TuningOption) (t : Tuner World)
    (b : Branch) (t' : Tuner World) : Prop :=
  match b with
  | Skipped =>
      0 < remaining_skips o /\ world t' = world t /\ nothing_committed t t'
  | ImprovedForward =>
      remaining_skips o <= 0
      /\ (run_pass (first_trial i o (tuning_options t)) (world t)
          = (Ok (best_err t'), world t')
          /\ (best_err t' <? best_err t)%float = true
          /\ improved t' = true)
  | ImprovedBackward =>
      remaining_skips o <= 0
      /\ (exists e1 w1,
            run_pass (first_trial i o (tuning_options t)) (world t) = (Ok e1, w1)
            /\ (e1 <? best_err t)%float = false
            /\ run_pass (second_trial i o (tuning_options t)) w1
               = (Ok (best_err t'), world t')
            /\ (best_err t' <? best_err t)%float = true
            /\ improved t' = true)
  | StepReduced =>
      remaining_skips o <= 0 /\ 1 < steps o
      /\ trials_failed i o t (world t') /\ nothing_committed t t'
  | Postponed =>
      remaining_skips o <= 0 /\ steps o <= 1
      /\ trials_failed i o t (world t') /\ nothing_committed t t'
  end.

(** The loop body at place [i] was left by an exception [x] of one of
    its two passes. *)
Definition pass_raised (i : nat) (o : TuningOption) (t : Tuner World)
    (x : exn) (w' : World) : Prop :=
  run_pass (first_trial i o (tuning_options t)) (world t) = (Raise x, w')
  \/ exists e1 w1,
       run_pass (first_trial i o (tuning_options t)) (world t) = (Ok e1, w1)
       /\ (e1 <? best_err t)%float = false
       /\ run_pass (second_trial i o (tuning_options t)) w1 = (Raise x, w').

(** What the loop body at place [i] leaves behind, whichever way it is
    left: [res] is its result and the state it ends in, [o] the option
    it started from. *)
Definition option_post (i : nat) (o : TuningOption) (t : Tuner World)
    (res : Result Branch * Tuner World) : Prop :=
  retry_postponed res.2 = retry_postponed t /\
  match res.1 with
  | Ok b =>
      tuning_options res.2 = <[i := after_branch b o]> (tuning_options t)
      /\ best_in_step res.2 /\ branch_spec i o t b res.2
  | Raise x =>
      remaining_skips o <= 0 /\ pass_raised i o t x (world res.2)
      /\ exists o', tuning_options res.2 = <[i := o']> (tuning_options t)
                    /\ iterations o' = iterations o + 1
  end.

End BranchSpec.

(** ** A worked run

    A stand-in for the scoring pass, for running the search on concrete
    values: it counts the passes run so far, and its error is 1000 minus
    the value of the second option, so that the second option improves
    whenever its value grows and the first one never does. *)
Definition demo_pass (options : list TuningOption) (passes : nat)
  : Result float * nat :=
  (match options !! 1%nat with
   | Some o => PyFloat.of_int (1000 - value o)
   | None => Ok 1000%float
   end, S passes).

Definition demo_options : list TuningOption :=
  [new_TuningOption "Alpha" 5 false ""; new_TuningOption "Beta" 0 false ""].

(** The variables before the loop, after the first pass. *)
Definition demo_start : Tuner nat := init_tuner demo_options 1000%float 1%nat.

(** The variables after [n] turns of the [while] loop. *)
Fixpoint demo_after (n : nat) : Tuner nat :=
  match n with
  | O => demo_start
  | S n' => (tuning_pass demo_pass (demo_after n')).2
  end.

(** The state at the head of the fourth turn, in which the first option
    has eight skips pending, and that option. *)
Definition demo_skipping : Tuner nat := begin_pass (demo_after 3).

Definition demo_postponed_option : TuningOption :=
  mkTuningOption "Alpha" 5 false "" 1 1 0 3 8 1.

(** A pass whose error is the same whatever the options are; it counts
    the passes run. *)
Definition flat_pass (options : list TuningOption) (passes : nat)
  : Result float * nat :=
  (Ok 1000%float, S passes).

(** The head of the first turn of a search over one option. *)
Definition flat_start : Tuner nat :=
  begin_pass (init_tuner [new_TuningOption "Alpha" 5 false ""] 1000%float 1%nat).

(** The same search after the loop body has run [n] times for its option. *)
Fixpoint flat_after (n : nat) : Tuner nat :=
  match n with
  | O => flat_start
  | S n' => (tune_option flat_pass 0 (flat_after n')).2
  end.

(** The head of the first turn of the worked run, and the second option
    after its first trial. *)
Definition demo_head : Tuner nat := begin_pass demo_start.

Definition demo_improved_option : TuningOption :=
  mkTuningOption "Beta" 16 false "" 16 1 1 1 0 0.

(** The option of the one-option search before and after its third
    trial, the first at step 1. *)
Definition flat_option_2 : TuningOption :=
  mkTuningOption "Alpha" 5 false "" 1 1 0 2 0 0.

Definition flat_option_3 : TuningOption :=
  mkTuningOption "Alpha" 5 false "" 1 1 0 3 8 1.

(** ** A worked pass

    An engine that answers the protocol for a corpus of two positions
    with the scores 42 and -7, and that corpus, as [read_fens] builds it
    (every score 0). *)
Definition demo_engine : Engine :=
  mkEngine [] ["id name demo"; "uciok"; "readyok"; "scores 42;-7"]%string
    true true.

Definition demo_corpus : list TestPosition :=
  [new_TestPosition "8/8/8/8/8/8/8/K6k w - - 0 1" 1;
   new_TestPosition "8/8/8/8/8/8/8/k6K b - - 0 1" 0].

(** The sessions and the corpus of a run with one worker. *)
Definition demo_pass_state : PassState :=
  mkPassState [demo_engine; demo_engine] demo_corpus.

(** A position whose score is beyond every float. *)
Definition huge_position : TestPosition :=
  mkTestPosition "8/8/8/8/8/8/8/K6k w - - 0 1" 1 (- 10 ^ 400).

(** ** The paths of the loop body and their guards *)

(** What the tests of the loop body have found of the option when the
    body takes the path [b]: the test of line 303 for a skip, the test of
    line 333 for the two paths without improvement. *)
Definition branch_guard (b : Branch) (o : TuningOption) : Prop :=
  match b with
  | Skipped => 0 < remaining_skips o
  | ImprovedForward | ImprovedBackward => remaining_skips o <= 0
  | StepReduced => remaining_skips o <= 0 /\ 1 < steps o
  | Postponed => remaining_skips o <= 0 /\ steps o <= 1
  end.

(** The paths that commit a trial. *)
Definition improving (b : Branch) : bool :=
  match b with
  | ImprovedForward | ImprovedBackward => true
  | Skipped | StepReduced | Postponed => false
  end.

(** ** What a session computation can do *)

(** Two states of the corpus that differ in scores only. *)
Definition same_games (ps ps' : list TestPosition) : Prop :=
  map fen ps' = map fen ps /\ map result ps' = map result ps.

(** The exceptions that [except Exception] catches in [run_engine], of
    those the model has: all but the two that end the run. *)
Definition caught (e : exn) : Prop :=
  e <> TimeoutExpired /\ e <> SystemExit.


(** The positions as the loop [for i in range(len(scores)):
    chunk[i].score = scores[i]] leaves them. *)
Definition write_scores (ps : list TestPosition) (chunk : list ref)
    (scores : list Z) : list TestPosition :=
  foldl (fun acc pv => alter (set_score pv.2) pv.1 acc) ps (zip chunk scores).

(** The commands [run_engine] sends before the first request. *)
Definition setup_commands (tuning_options : list TuningOption) : list string :=
  ("uci" ++ PyStr.newline)%string
  :: map (fun option =>
            ("setoption name " ++ name option ++ " value "
             ++ PyStr.of_int (value option) ++ PyStr.newline)%string)
       tuning_options
  ++ [("isready" ++ PyStr.newline)%string].

(** [pos.fen] for the position at place [pos] of the corpus. *)
Definition fen_at (ps : list TestPosition) (pos : ref) : string :=
  from_option fen EmptyString (ps !! pos).

(** The request line for a chunk: [eval ] and the positions of the chunk
    in order, with [;] between them. *)
Definition eval_line (ps : list TestPosition) (chunk : list ref) : string :=
  ("eval " ++ String.concat ";" (map (fen_at ps) chunk))%string.

(** The corpus after the reply [r] to the request of a chunk has been
    handled: the scores are written only when the reply can be read and
    has one score for each position of the chunk. *)
Definition after_reply (ps : list TestPosition) (chunk : list ref)
    (r : option string) : list TestPosition :=
  match parse_scores r with
  | Ok scores =>
      if decide (length scores = length chunk)
      then write_scores ps chunk scores else ps
  | Raise _ => ps
  end.

(** ** [read_fens] *)

(** [s[i:j]] on a string; [None] stands for a bound that is left out. *)
Definition str_slice (s : string) (i j : option Z) : string :=
  let len := Z.of_nat (String.length s) in
  let lo := match i with None => 0 | Some i => Py.slice_bound len i end in
  let hi := match j with None => len | Some j => Py.slice_bound len j end in
  String.substring (Z.to_nat lo) (Z.to_nat (hi - lo)) s.

(** [s.strip()]. *)
Definition str_strip (s : string) : string := PyStr.rstrip (PyStr.lstrip s).

(** The body of the loop of [read_fens], for one line of the file.
<<
    fen = line[:-5]
    result_str = line[-4:].strip()
    result = 1 if result_str == "1-0" else 0 if result_str == "0-1" else 0.5
    test_positions.append(TestPosition(fen, result))
>>
    The results 1 and 0 are integers in the source; they are used in float
    arithmetic only, and are embedded as the floats of the same value. *)
Definition read_fens_line (line : string) : TestPosition :=
  let fen := str_slice line None (Some (-5)) in
  let result_str := str_strip (str_slice line (Some (-4)) None) in
  let result :=
    if String.eqb result_str "1-0" then 1%float
    else if String.eqb result_str "0-1" then 0%float
    else 0.5%float in
  new_TestPosition fen result.

(** [read_fens(fen_file)], on the lines of the file as the iteration over
    a text file yields them: each with its line terminator, but for a last
    line that has none. Opening the file is not modelled. *)
Definition read_fens (lines : list string) : list TestPosition :=
  map read_fens_line lines.

(** ** The tuning options of [Config] and [write_options] *)

(** The value of an entry of the [tuning] list of the configuration, or
    of the result file: an integer or a list of integers. *)
Inductive CfgValue : Set :=
  | CfgInt (v : Z)
  | CfgList (vs : list Z).

(** An entry: a mapping with the keys [name] and [value]. *)
Record TuningEntry : Set := mkTuningEntry {
  entry_name : string;
  entry_value : CfgValue
}.

(** The options that [Config.__init__] makes of one entry, for entries
    whose name is a string and whose value is an integer or a list of
    integers (on which [int(v)] is the identity).
<<
    value = t["value"]
    if type(value) is list:
        for index, v in enumerate(value):
            option = TuningOption(t["name"] + str(index), int(v), True, t["name"])
            self.tuning_options.append(option)
    else:
        option = TuningOption(t["name"], int(value))
        self.tuning_options.append(option)
>> *)
Definition expand_entry (t : TuningEntry) : list TuningOption :=
  match entry_value t with
  | CfgList value =>
      imap (fun index v =>
              new_TuningOption
                (entry_name t ++ PyStr.of_int (Z.of_nat index)) v true
                (entry_name t))
        value
  | CfgInt value => [new_TuningOption (entry_name t) value false ""]
  end.

(** [self.tuning_options] as [Config.__init__] builds it from
    [cfg.get('tuning')]. *)
Definition config_tuning_options (tuning_cfg : option (list TuningEntry))
  : list TuningOption :=
  match tuning_cfg with
  | None => []
  | Some entries => concat (map expand_entry entries)
  end.

(** [result_by_name]: a dictionary from original names to result
    objects; a result object is named by its place in [results], so that a
    change through the dictionary is a change of the object in the
    list. *)
Fixpoint dict_get (d : list (string * nat)) (key : string) : option nat :=
  match d with
  | [] => None
  | (k, i) :: rest => if String.eqb k key then Some i else dict_get rest key
  end.

(** [result["value"].append(v)]; the objects of [result_by_name] all hold
    lists, the other case is not reached. *)
Definition append_value (v : Z) (result : TuningEntry) : TuningEntry :=
  match entry_value result with
  | CfgList vs => mkTuningEntry (entry_name result) (CfgList (vs ++ [v]))
  | CfgInt _ => result
  end.

(** The body of the loop of [write_options], for one option.
<<
    if option.is_part:
        if option.orig_name in result_by_name:
            result_by_name[option.orig_name]["value"].append(option.value)
        else:
            result = {"name": option.orig_name, "value": [option.value]}
            results.append(result)
            result_by_name[option.orig_name] = result
    else:
        results.append({"name": option.name, "value": option.value})
>> *)
Definition write_option (st : list TuningEntry * list (string * nat))
    (option : TuningOption) : list TuningEntry * list (string * nat) :=
  let '(results, result_by_name) := st in
  if is_part option then
    match dict_get result_by_name (orig_name option) with
    | Some i => (alter (append_value (value option)) i results, result_by_name)
    | None =>
        (results ++ [mkTuningEntry (orig_name option) (CfgList [value option])],
         (orig_name option, length results) :: result_by_name)
    end
  else
    (results ++ [mkTuningEntry (name option) (CfgInt (value option))],
     result_by_name).

(** [write_options(options)]: the list [results] that is dumped to the
    result file. Writing the file is not modelled. *)
Definition write_options (options : list TuningOption) : list TuningEntry :=
  (foldl write_option ([], []) options).1.

(** The names of the entries that hold lists. *)
Definition list_names (entries : list TuningEntry) : list string :=
  omap (fun t => match entry_value t with
                 | CfgList _ => Some (entry_name t)
                 | CfgInt _ => None
                 end) entries.

(** ** The number of workers of [Config] *)





(** * The coordinate search: symbolic execution of the loop body *)

Section SearchStatements.

Context {World : Type}.
Variable run_pass : list TuningOption -> World -> Result float * World.
Implicit Types (t : Tuner World) (o : TuningOption) (i : nat).

Lemma Search_bind_ok {A B} (m : Search World A) (f : A -> Search World B)
    t a t' :
  m t = (Ok a, t') -> (m ≫= f) t = f a t'.
Proof. intros H. unfold mbind, Search_bind. by rewrite H. Qed.

Lemma Search_bind_raise {A B} (m : Search World A)
    (f : A -> Search World B) t e t' :
  m t = (Raise e, t') -> (m ≫= f) t = (Raise e, t').
Proof. intros H. unfold mbind, Search_bind. by rewrite H. Qed.

Lemma Search_bind_assoc {A B C} (m : Search World A)
    (f : A -> Search World B) (g : B -> Search World C) t :
  ((m ≫= f) ≫= g) t = (m ≫= (fun a => f a ≫= g)) t.
Proof. unfold mbind, Search_bind. by destruct (m t) as [[a|e] t']. Qed.

Lemma get_option_at base i o bo e im rp (w : World) :
  (i < length base)%nat ->
  get_option i (mkTuner (<[i:=o]> base) bo e im rp w)
  = (Ok o, mkTuner (<[i:=o]> base) bo e im rp w).
Proof.
  intros Hi. unfold get_option. cbn.
  by rewrite list_lookup_insert_eq.
Qed.

Lemma modify_option_at f base i o bo e im rp (w : World) :
  (i < length base)%nat ->
  modify_option i f (mkTuner (<[i:=o]> base) bo e im rp w)
  = (Ok tt, mkTuner (<[i:=f o]> base) bo e im rp w).
Proof.
  intros Hi. unfold modify_option. cbn.
  rewrite list_lookup_insert_eq by done.
  by rewrite list_insert_insert_eq.
Qed.

Lemma modify_best_alias f base i o e im rp (w : World) :
  (i < length base)%nat ->
  modify_best i f (mkTuner (<[i:=o]> base) None e im rp w)
  = (Ok tt, mkTuner (<[i:=f o]> base) None e im rp w).
Proof. intros Hi. unfold modify_best. cbn. by apply modify_option_at. Qed.

Lemma modify_best_own f opts base i o e im rp (w : World) :
  (i < length base)%nat ->
  modify_best i f (mkTuner opts (Some (<[i:=o]> base)) e im rp w)
  = (Ok tt, mkTuner opts (Some (<[i:=f o]> base)) e im rp w).
Proof.
  intros Hi. unfold modify_best. cbn.
  rewrite list_lookup_insert_eq by done.
  by rewrite list_insert_insert_eq.
Qed.

Lemma call_run_pass_at opts bo e im rp (w : World) r w1 :
  run_pass opts w = (r, w1) ->
  call_run_pass run_pass (mkTuner opts bo e im rp w)
  = (r, mkTuner opts bo e im rp w1).
Proof. intros H. unfold call_run_pass. cbn. by rewrite H. Qed.

End SearchStatements.

(** One statement of the loop body, run on an explicit state. *)
Ltac search_prim :=
  first
    [ apply get_option_at; assumption
    | apply modify_option_at; assumption
    | apply modify_best_alias; assumption
    | apply modify_best_own; assumption
    | apply call_run_pass_at; eassumption
    | reflexivity ].

Ltac search_step H :=
  lazymatch type of H with
  | context [(?m ≫= ?f) ?t] =>
      first
        [ rewrite (Search_bind_assoc _ _ f t) in H
        | erewrite (Search_bind_ok m f t) in H by search_prim
        | erewrite (Search_bind_raise m f t) in H by search_prim ]
  end.

Ltac option_fields :=
  cbn [name value is_part orig_name steps direction improvements iterations
       remaining_skips skip_count set_value set_steps set_direction
       set_improvements set_iterations set_remaining_skips set_skip_count] in *.

(** On a record that is a constructor application the setters compute. *)
Ltac option_norm :=
  cbv beta iota zeta delta
    [name value is_part orig_name steps direction improvements iterations
     remaining_skips skip_count set_value set_steps set_direction
     set_improvements set_iterations set_remaining_skips set_skip_count
     after_branch] in *.

Ltac search_exec H :=
  repeat (search_step H; cbv beta in H); unfold mret, Search_ret in H;
  option_fields.

(** The whole body: statements are run in order, a pass and a test split
    the proof. *)
Ltac search_run H :=
  search_exec H;
  try lazymatch type of H with
  | context [(call_run_pass ?rp ≫= _) (mkTuner ?opts _ _ _ _ ?w)] =>
      let E := fresh "Epass" in
      destruct (rp opts w) as [[?e|?x] ?w] eqn:E; search_run H
  | context [(if ?c then _ else _) (mkTuner _ _ _ _ _ _)] =>
      destruct c eqn:?; search_run H
  | context [((if ?c then _ else _) ≫= _) (mkTuner _ _ _ _ _ _)] =>
      destruct c eqn:?; search_run H
  end.

Ltac Z_tests :=
  repeat match goal with
    | H : (_ <? _) = true |- _ => apply Z.ltb_lt in H
    | H : (_ <? _) = false |- _ => apply Z.ltb_ge in H
    | H : (_ =? _) = true |- _ => apply Z.eqb_eq in H
    | H : (_ =? _) = false |- _ => apply Z.eqb_neq in H
    end.

Section SearchBody.

Context {World : Type}.
Variable run_pass : list TuningOption -> World -> Result float * World.
Implicit Types (t : Tuner World) (o : TuningOption) (i : nat).

Lemma tune_option_exec_at base i o bo e im rp (w : World) res :
  (i < length base)%nat ->
  (bo = None \/ bo = Some (<[i:=o]> base) /\ im = true) ->
  tune_option run_pass i (mkTuner (<[i:=o]> base) bo e im rp w) = res ->
  option_post run_pass i o (mkTuner (<[i:=o]> base) bo e im rp w) res.
Proof.
  intros Hi Hbo Hres.
  unfold tune_option, commit, no_improvement in Hres.
  destruct Hbo as [->|[-> ->]]; search_run Hres; subst res.
  all: unfold option_post, pass_raised, branch_spec, trials_failed,
         nothing_committed, first_trial, second_trial.
  all: cbn [fst snd tuning_options world best_err improved best_options
            retry_postponed best_in_step after_branch] in *.
  all: destruct o; option_norm.
  all: rewrite ?list_insert_insert_eq.
  all: repeat match goal with
         | H : ?c = _ |- context [if ?c then _ else _] => rewrite H
         end.
  all: repeat match goal with
         | H : (_ <? _) = true |- _ => apply Z.ltb_lt in H
         | H : (_ <? _) = false |- _ => apply Z.ltb_ge in H
         end.
  all: repeat split; try done; try lia; eauto 10.
  all: eexists; split; [symmetry; apply list_insert_insert_eq | reflexivity].
Qed.

(** The loop body, on any state in which [best_options] is in step. *)
Lemma tune_option_post t i o :
  best_in_step t ->
  tuning_options t !! i = Some o ->
  option_post run_pass i o t (tune_option run_pass i t).
Proof.
  intros Hbest Hi.
  destruct t as [opts bo e im rp w]. cbn in *.
  assert (Hlen : (i < length opts)%nat) by (by eapply lookup_lt_Some).
  assert (Hid : <[i:=o]> opts = opts) by (by apply list_insert_id).
  rewrite <- Hid.
  apply tune_option_exec_at; [done | | done].
  unfold best_in_step in Hbest. cbn in Hbest.
  destruct bo as [l|]; [right | by left].
  destruct Hbest as [-> ->]. by rewrite Hid.
Qed.

(** Outside the list the first statement raises. *)
Lemma tune_option_out_of_range t i :
  tuning_options t !! i = None ->
  tune_option run_pass i t = (Raise IndexError, t).
Proof.
  intros Hi. unfold tune_option.
  erewrite Search_bind_raise; [done |].
  unfold modify_option. by rewrite Hi.
Qed.

Lemma tune_option_ok t i b t' :
  best_in_step t ->
  tune_option run_pass i t = (Ok b, t') ->
  exists o,
    tuning_options t !! i = Some o
    /\ tuning_options t' = <[i := after_branch b o]> (tuning_options t)
    /\ best_in_step t'
    /\ retry_postponed t' = retry_postponed t
    /\ branch_spec run_pass i o t b t'.
Proof.
  intros Hbest Hrun.
  destruct (tuning_options t !! i) as [o|] eqn:Hi.
  - exists o. pose proof (tune_option_post t i o Hbest Hi) as Hpost.
    rewrite Hrun in Hpost. unfold option_post in Hpost. cbn in Hpost.
    destruct Hpost as (Hrp & Hopts & Hbest' & Hspec). eauto 10.
  - rewrite tune_option_out_of_range in Hrun by done. discriminate.
Qed.

End SearchBody.

(** * The coordinate search: what every state satisfies *)

Lemma fresh_option_ok o : fresh o -> option_ok o.
Proof.
  intros (Hs & _ & _ & _ & Hr & Hk). unfold option_ok. rewrite Hs, Hr, Hk. lia.
Qed.

(** The guards of each path keep the option within its bounds. *)
Lemma after_branch_ok b o :
  option_ok o ->
  (b = Skipped -> 0 < remaining_skips o) ->
  (b = StepReduced -> 1 < steps o) ->
  option_ok (after_branch b o).
Proof.
  intros (Hs & Hr & Hk) Hskip Hred.
  unfold option_ok, after_branch.
  destruct o as [n v p on s d im it rs sc]. option_norm.
  destruct b; option_norm.
  - specialize (Hskip eq_refl). clear Hred. lia.
  - clear Hskip Hred. lia.
  - clear Hskip Hred. lia.
  - specialize (Hred eq_refl). clear Hskip.
    destruct ((1 <? it + 1) && (im =? 0)); [lia |].
    destruct Hs as [-> | [-> | ->]]; [| | lia];
      (split; [vm_compute; auto | lia]).
  - clear Hskip Hred. lia.
Qed.

(** The postponed check gives every option step 1 and no pending skips,
    and leaves its other fields alone. *)
Lemma reset_postponed_fst best any :
  (reset_postponed best any).1
  = map (fun o => set_remaining_skips (Z.min 0 (remaining_skips o))
                    (set_steps 1 o)) best.
Proof.
  revert any. induction best as [|o rest IH]; intros any; [done |].
  cbn [reset_postponed].
  destruct (0 <? remaining_skips (set_steps 1 o)) eqn:Hpos.
  - specialize (IH true).
    destruct (reset_postponed rest true) as [rest' any']. cbn in *.
    rewrite IH. f_equal. destruct o. option_norm. Z_tests. f_equal. lia.
  - specialize (IH any).
    destruct (reset_postponed rest any) as [rest' any']. cbn in *.
    rewrite IH. f_equal. destruct o. option_norm. Z_tests. f_equal. lia.
Qed.

Lemma reset_postponed_lookup best any j :
  (reset_postponed best any).1 !! j
  = (fun o => set_remaining_skips (Z.min 0 (remaining_skips o)) (set_steps 1 o))
      <$> best !! j.
Proof. rewrite reset_postponed_fst. apply list_lookup_fmap. Qed.

Section SearchInvariant.

Context {World : Type}.
Variable run_pass : list TuningOption -> World -> Result float * World.
Implicit Types (t : Tuner World) (o : TuningOption) (i : nat).

Lemma best_list_in_step t : best_in_step t -> best_list t = tuning_options t.
Proof.
  unfold best_in_step, best_list.
  destruct (best_options t) as [l|]; [by intros [-> _] | done].
Qed.

Lemma init_tuner_inv options err (w : World) :
  Forall fresh options -> search_inv (init_tuner options err w).
Proof.
  intros Hfresh. split; [done |]. cbn.
  eapply Forall_impl; [exact Hfresh | apply fresh_option_ok].
Qed.

Lemma begin_pass_options t :
  best_in_step t -> tuning_options (begin_pass t) = tuning_options t.
Proof. intros H. cbn. by apply best_list_in_step. Qed.

Lemma begin_pass_inv t : search_inv t -> search_inv (begin_pass t).
Proof.
  intros [Hbest Hok]. split; [done |].
  by rewrite begin_pass_options.
Qed.

(** The postponed check, option by option. *)
Lemma check_postponed_lookup t j :
  best_in_step t ->
  tuning_options (check_postponed t) !! j
  = (if negb (improved t) && negb (retry_postponed t)
     then fun o => set_remaining_skips (Z.min 0 (remaining_skips o))
                     (set_steps 1 o)
     else id) <$> tuning_options t !! j.
Proof.
  intros Hbest. unfold check_postponed.
  destruct (negb (improved t) && negb (retry_postponed t)) eqn:Hc.
  - destruct (reset_postponed (best_list t) false) as [best any] eqn:E.
    unfold best_in_step in Hbest. unfold best_list in E.
    destruct (best_options t) as [l|].
    + destruct Hbest as [_ Him]. rewrite Him in Hc. done.
    + cbn. change best with (best, any).1. rewrite <- E.
      apply reset_postponed_lookup.
  - cbn. by destruct (tuning_options t !! j).
Qed.

Lemma check_postponed_inv t : search_inv t -> search_inv (check_postponed t).
Proof.
  intros [Hbest Hok]. split.
  - unfold check_postponed, best_in_step in *.
    destruct (negb (improved t) && negb (retry_postponed t)) eqn:Hc.
    + destruct (reset_postponed (best_list t) false) as [best any].
      destruct (best_options t) as [l|]; [| done].
      destruct Hbest as [_ Him]. rewrite Him in Hc. done.
    + cbn. by destruct (best_options t).
  - apply Forall_lookup. intros j o' Hj.
    rewrite check_postponed_lookup in Hj by done.
    destruct (tuning_options t !! j) as [o|] eqn:Ho; [| done].
    cbn in Hj. injection Hj as <-.
    pose proof (proj1 (Forall_lookup _ _) Hok j o Ho) as (Hs & Hr & Hk).
    destruct (negb (improved t) && negb (retry_postponed t)); [| done].
    unfold option_ok. destruct o. option_norm. lia.
Qed.

Lemma branch_spec_guards i o t b t' :
  branch_spec run_pass i o t b t' ->
  (b = Skipped -> 0 < remaining_skips o) /\ (b = StepReduced -> 1 < steps o).
Proof. destruct b; cbn; intros H; split; intros Hb; try done; tauto. Qed.

Lemma tune_option_inv t i b t' :
  search_inv t ->
  tune_option run_pass i t = (Ok b, t') ->
  search_inv t'.
Proof.
  intros [Hbest Hok] Hrun.
  destruct (tune_option_ok run_pass t i b t' Hbest Hrun)
    as (o & Hi & Hopts & Hbest' & _ & Hspec).
  split; [done |]. rewrite Hopts.
  apply Forall_insert; [done |].
  apply branch_spec_guards in Hspec as [Hskip Hred].
  apply after_branch_ok; [| done | done].
  by eapply (proj1 (Forall_lookup _ _) Hok).
Qed.

Lemma step_inv t ev t' :
  search_inv t -> step run_pass t ev t' -> search_inv t'.
Proof.
  intros Hinv Hstep. destruct Hstep.
  - by apply begin_pass_inv.
  - by eapply tune_option_inv.
  - by apply check_postponed_inv.
Qed.

Lemma reachable_inv t : reachable run_pass t -> search_inv t.
Proof.
  induction 1 as [options err w Hfresh | t ev t' _ IH Hstep].
  - by apply init_tuner_inv.
  - by eapply step_inv.
Qed.

Lemma streak_reachable i k t : streak run_pass i k t -> reachable run_pass t.
Proof.
  induction 1 as [options err w Hfresh | k t ev t' _ IH Hstep].
  - by apply reach_init.
  - by eapply reach_step.
Qed.

(** [skip_count] counts the failures at the smallest step that an option
    has had in a row. *)
Lemma streak_skip_count i k t o :
  streak run_pass i k t ->
  tuning_options t !! i = Some o ->
  skip_count o = Z.of_nat k.
Proof.
  intros Hstreak. revert o.
  induction Hstreak as [options err w Hfresh | k t ev t' Hs IH Hstep];
    intros o' Hi.
  - cbn in Hi.
    by destruct (proj1 (Forall_lookup _ _) Hfresh i o' Hi) as (_&_&_&_&_&->).
  - pose proof (reachable_inv t (streak_reachable _ _ _ Hs)) as [Hbest Hok].
    destruct Hstep as [t | t j b t' Hrun | t].
    + rewrite begin_pass_options in Hi by done. by apply IH.
    + destruct (tune_option_ok run_pass t j b t' Hbest Hrun)
        as (o & Hj & Hopts & _).
      rewrite Hopts in Hi. cbn. destruct (decide (j = i)) as [-> | Hne].
      * rewrite list_lookup_insert_eq in Hi by (by eapply lookup_lt_Some).
        injection Hi as <-. specialize (IH o Hj).
        destruct o, b; option_norm; cbn; lia.
      * rewrite list_lookup_insert_ne in Hi by done. by apply IH.
    + rewrite check_postponed_lookup in Hi by done.
      destruct (tuning_options t !! i) as [o|] eqn:Ho; [| done].
      cbn in Hi. injection Hi as <-. specialize (IH o eq_refl).
      cbn. by destruct (negb (improved t) && negb (retry_postponed t)), o.
Qed.

(** The states of the program's own loops are states of the transition
    system. *)
Lemma tune_options_reachable places t bs t' :
  reachable run_pass t ->
  tune_options run_pass places t = (Ok bs, t') ->
  reachable run_pass t'.
Proof.
  revert t bs. induction places as [|i rest IH]; intros t bs Hreach Hrun.
  - cbn in Hrun. by injection Hrun as _ <-.
  - cbn in Hrun. unfold mbind, Search_bind in Hrun.
    destruct (tune_option run_pass i t) as [[b|e] t1] eqn:H1; [| done].
    destruct (tune_options run_pass rest t1) as [[bs'|e] t2] eqn:H2; [| done].
    cbn in Hrun. injection Hrun as _ <-.
    eapply IH; [| exact H2].
    eapply reach_step; [exact Hreach | by apply step_option].
Qed.

Lemma tuning_pass_reachable t bs t' :
  reachable run_pass t ->
  tuning_pass run_pass t = (Ok bs, t') ->
  reachable run_pass t'.
Proof.
  intros Hreach Hrun. unfold tuning_pass in Hrun.
  destruct (tune_options run_pass _ (begin_pass t)) as [[bs'|e] t1] eqn:H1;
    [| done].
  injection Hrun as _ <-.
  eapply reach_step; [| apply step_check].
  eapply tune_options_reachable; [| exact H1].
  eapply reach_step; [exact Hreach | apply step_begin].
Qed.

Lemma tuning_pass_reachable_snd t :
  reachable run_pass t ->
  (exists bs, (tuning_pass run_pass t).1 = Ok bs) ->
  reachable run_pass (tuning_pass run_pass t).2.
Proof.
  intros Hreach [bs Hbs].
  eapply tuning_pass_reachable; [exact Hreach |].
  rewrite <- Hbs. apply surjective_pairing.
Qed.

Lemma tune_option_reachable_snd t i :
  reachable run_pass t ->
  (exists b, (tune_option run_pass i t).1 = Ok b) ->
  reachable run_pass (tune_option run_pass i t).2.
Proof.
  intros Hreach [b Hb].
  eapply reach_step; [exact Hreach |].
  apply (step_option _ _ i b). rewrite <- Hb. apply surjective_pairing.
Qed.

Lemma tuning_loop_reachable fuel t r t' :
  reachable run_pass t ->
  tuning_loop run_pass fuel t = Some (Ok r, t') ->
  reachable run_pass t'.
Proof.
  revert t. induction fuel as [|fuel IH]; intros t Hreach Hrun.
  - cbn in Hrun. destruct (improved t); [done |]. by injection Hrun as _ <-.
  - cbn in Hrun. destruct (improved t); [| by injection Hrun as _ <-].
    destruct (tuning_pass run_pass t) as [[bs|e] t1] eqn:H1; [| done].
    eapply IH; [| exact Hrun]. by eapply tuning_pass_reachable.
Qed.

End SearchInvariant.

(** * The coordinate search: the loop body, path by path *)

Section SearchPaths.

Context {World : Type}.
Variable run_pass : list TuningOption -> World -> Result float * World.
Implicit Types (t : Tuner World) (o : TuningOption) (i : nat).

Lemma after_branch_iterations b o :
  iterations (after_branch b o) = iterations o + 1.
Proof. by destruct o, b. Qed.


End SearchPaths.

(** * The claims about the coordinate search *)

(** C4 (as amended). In the loop body for the option at place [i], the
    iteration count goes up by exactly one in every case. If the option
    has skips pending, one of them is used up and the body is left at
    once: the result is [Skipped], no field of the option other than
    [iterations] and [remaining_skips] changes, no other option changes,
    and no pass is run (the world, [best_err] and [improved] are as
    before). Otherwise the body is not left by that path and a trial is
    made: the world afterwards is what the pass on the first trial value
    leaves, or what the pass on the second trial value leaves after it. *)
Theorem tune_option_skip_or_trial {World : Type}
    (run_pass : list TuningOption -> World -> Result float * World)
    (t : Tuner World) (i : nat) (o : TuningOption) :
  reachable run_pass t ->
  tuning_options t !! i = Some o ->
  exists r t' o',
    tune_option run_pass i t = (r, t')
    /\ tuning_options t' = <[i := o']> (tuning_options t)
    /\ iterations o' = iterations o + 1
    /\ (0 < remaining_skips o ->
        r = Ok Skipped
        /\ o' = set_remaining_skips (remaining_skips o - 1)
                  (set_iterations (iterations o + 1) o)
        /\ world t' = world t /\ best_err t' = best_err t
        /\ improved t' = improved t)
    /\ (remaining_skips o <= 0 ->
        r <> Ok Skipped
        /\ exists r1 w1,
             run_pass (first_trial i o (tuning_options t)) (world t) = (r1, w1)
             /\ (world t' = w1
                 \/ exists r2,
                      run_pass (second_trial i o (tuning_options t)) w1
                      = (r2, world t'))).
Proof.
  intros Hreach Hi.
  pose proof (reachable_inv run_pass t Hreach) as [Hbest Hok].
  pose proof (tune_option_post run_pass t i o Hbest Hi) as Hpost.
  destruct (tune_option run_pass i t) as [[b|x] t'] eqn:Hrun;
    unfold option_post in Hpost; cbn in Hpost.
  - destruct Hpost as (_ & Hopts & _ & Hspec).
    exists (Ok b), t', (after_branch b o).
    split; [done |]. split; [done |].
    split; [apply after_branch_iterations |].
    destruct b; cbn in Hspec; (split; [intros Hpos | intros Hneg]);
      try lia; try (split; [done |]).
    + destruct Hspec as (_ & Hw & He & Him & _). by destruct o.
    + destruct Hspec as (_ & Hp & _). eauto.
    + destruct Hspec as (_ & e1 & w1 & Hp1 & _ & Hp2 & _). eauto 6.
    + destruct Hspec as (_ & _ & (e1 & w1 & e2 & Hp1 & _ & Hp2 & _) & _).
      eauto 6.
    + destruct Hspec as (_ & _ & (e1 & w1 & e2 & Hp1 & _ & Hp2 & _) & _).
      eauto 6.
  - destruct Hpost as (_ & Hneg & Hraised & o' & Hopts & Hit).
    exists (Raise x), t', o'.
    split; [done |]. split; [done |]. split; [done |].
    split; [lia |]. intros _. split; [done |].
    destruct Hraised as [Hp | (e1 & w1 & Hp1 & _ & Hp2)]; eauto 6.
Qed.

(** The worked runs stay within the states of the search. *)
Lemma demo_after_S n :
  demo_after (S n) = (tuning_pass demo_pass (demo_after n)).2.
Proof. reflexivity. Qed.

Lemma flat_after_S n :
  flat_after (S n) = (tune_option flat_pass 0 (flat_after n)).2.
Proof. reflexivity. Qed.

Lemma demo_after_reachable_0 : reachable demo_pass (demo_after 0).
Proof. apply reach_init. repeat constructor. Qed.

Lemma demo_after_reachable_1 : reachable demo_pass (demo_after 1).
Proof.
  rewrite demo_after_S.
  apply tuning_pass_reachable_snd; [apply demo_after_reachable_0 |].
  vm_compute. eexists; reflexivity.
Qed.

Lemma demo_after_reachable_2 : reachable demo_pass (demo_after 2).
Proof.
  rewrite demo_after_S.
  apply tuning_pass_reachable_snd; [apply demo_after_reachable_1 |].
  vm_compute. eexists; reflexivity.
Qed.

Lemma demo_after_reachable_3 : reachable demo_pass (demo_after 3).
Proof.
  rewrite demo_after_S.
  apply tuning_pass_reachable_snd; [apply demo_after_reachable_2 |].
  vm_compute. eexists; reflexivity.
Qed.

Lemma demo_skipping_reachable : reachable demo_pass demo_skipping.
Proof.
  unfold demo_skipping.
  apply (reach_step demo_pass (demo_after 3) EvBegin);
    [apply demo_after_reachable_3 | apply step_begin].
Qed.

Lemma flat_start_streak : streak flat_pass 0 0 flat_start.
Proof.
  unfold flat_start.
  apply (streak_step flat_pass 0 0
           (init_tuner [new_TuningOption "Alpha" 5 false ""] 1000%float 1%nat)
           EvBegin);
    [| apply step_begin].
  apply streak_init. repeat constructor.
Qed.

Lemma streak_option_snd {World : Type}
    (run_pass : list TuningOption -> World -> Result float * World)
    (i k : nat) (t : Tuner World) (b : Branch) :
  streak run_pass i k t ->
  (tune_option run_pass i t).1 = Ok b ->
  streak run_pass i (streak_after i k (EvOption i b))
    (tune_option run_pass i t).2.
Proof.
  intros Hs Hb. apply (streak_step run_pass i k t (EvOption i b)); [done |].
  apply step_option. rewrite <- Hb. apply surjective_pairing.
Qed.

Lemma flat_after_streak_1 : streak flat_pass 0 0 (flat_after 1).
Proof.
  rewrite flat_after_S.
  apply (streak_option_snd flat_pass 0 0 (flat_after 0) StepReduced);
    [apply flat_start_streak |].
  vm_compute. reflexivity.
Qed.

Lemma flat_after_streak_2 : streak flat_pass 0 0 (flat_after 2).
Proof.
  rewrite flat_after_S.
  apply (streak_option_snd flat_pass 0 0 (flat_after 1) StepReduced);
    [apply flat_after_streak_1 |].
  vm_compute. reflexivity.
Qed.

(** C4, the claim as stated does not hold: at the head of the fourth turn
    of the worked run the first option has 3 iterations and 8 skips
    pending; the loop body skips it, and yet its iteration count is 4
    afterwards. *)
Lemma skipped_option_counts_iteration :
  tuning_options demo_skipping !! 0%nat = Some demo_postponed_option
  /\ iterations demo_postponed_option = 3
  /\ remaining_skips demo_postponed_option = 8
  /\ (tune_option demo_pass 0 demo_skipping).1 = Ok Skipped
  /\ tuning_options (tune_option demo_pass 0 demo_skipping).2 !! 0%nat
     = Some (mkTuningOption "Alpha" 5 false "" 1 1 0 4 7 1)
  /\ world (tune_option demo_pass 0 demo_skipping).2 = world demo_skipping.
Proof. vm_compute. repeat split. Qed.

(** C4 at the head of the fourth turn of the worked run. *)
Lemma tune_option_skip_or_trial_witness :
  exists r t' o',
    tune_option demo_pass 0 demo_skipping = (r, t')
    /\ tuning_options t' = <[0%nat := o']> (tuning_options demo_skipping)
    /\ iterations o' = iterations demo_postponed_option + 1
    /\ (0 < remaining_skips demo_postponed_option ->
        r = Ok Skipped
        /\ o' = set_remaining_skips (remaining_skips demo_postponed_option - 1)
                  (set_iterations (iterations demo_postponed_option + 1)
                     demo_postponed_option)
        /\ world t' = world demo_skipping
        /\ best_err t' = best_err demo_skipping
        /\ improved t' = improved demo_skipping)
    /\ (remaining_skips demo_postponed_option <= 0 ->
        r <> Ok Skipped
        /\ exists r1 w1,
             demo_pass (first_trial 0 demo_postponed_option
                          (tuning_options demo_skipping))
               (world demo_skipping) = (r1, w1)
             /\ (world t' = w1
                 \/ exists r2,
                      demo_pass (second_trial 0 demo_postponed_option
                                   (tuning_options demo_skipping)) w1
                      = (r2, world t'))).
Proof.
  apply (tune_option_skip_or_trial demo_pass demo_skipping 0
           demo_postponed_option).
  - apply demo_skipping_reachable.
  - vm_compute. reflexivity.
Defined.



(** C6. When the loop body for the option at place [i] takes an
    improving path (the error of a trial was below [best_err] and the
    trial was committed), the option has no skips pending and no failure
    counted afterwards, in [config.tuning_options] and in the new
    [best_options] alike; [best_err] has gone down and [improved] is
    set. *)
Theorem improvement_clears_skips {World : Type}
    (run_pass : list TuningOption -> World -> Result float * World)
    (t : Tuner World) (i : nat) (b : Branch) (t' : Tuner World)
    (o' : TuningOption) :
  reachable run_pass t ->
  tune_option run_pass i t = (Ok b, t') ->
  b = ImprovedForward \/ b = ImprovedBackward ->
  tuning_options t' !! i = Some o' ->
  remaining_skips o' = 0 /\ skip_count o' = 0
  /\ best_list t' !! i = Some o'
  /\ (best_err t' <? best_err t)%float = true
  /\ improved t' = true.
Proof.
  intros Hreach Hrun Hb Hi'.
  pose proof (reachable_inv run_pass t Hreach) as [Hbest Hok].
  destruct (tune_option_ok run_pass t i b t' Hbest Hrun)
    as (o & Hi & Hopts & Hbest' & _ & Hspec).
  destruct (proj1 (Forall_lookup _ _) Hok i o Hi) as (_ & Hrs & _).
  rewrite best_list_in_step by done.
  rewrite Hopts, list_lookup_insert_eq in Hi' by (by eapply lookup_lt_Some).
  injection Hi' as <-.
  rewrite Hopts, list_lookup_insert_eq by (by eapply lookup_lt_Some).
  destruct Hb as [-> | ->]; cbn in Hspec.
  - destruct Hspec as (Hneg & _ & Hlt & Him).
    destruct o; option_norm. repeat split; try done. lia.
  - destruct Hspec as (Hneg & e1 & w1 & _ & _ & _ & Hlt & Him).
    destruct o; option_norm. repeat split; try done. lia.
Qed.

(** C6 on the first trial of the second option of the worked run. *)
Lemma improvement_clears_skips_witness :
  remaining_skips demo_improved_option = 0
  /\ skip_count demo_improved_option = 0
  /\ best_list (tune_option demo_pass 1 demo_head).2 !! 1%nat
     = Some demo_improved_option
  /\ (best_err (tune_option demo_pass 1 demo_head).2 <? best_err demo_head)%float
     = true
  /\ improved (tune_option demo_pass 1 demo_head).2 = true.
Proof.
  apply (improvement_clears_skips demo_pass demo_head 1 ImprovedForward
           (tune_option demo_pass 1 demo_head).2 demo_improved_option).
  - unfold demo_head.
    apply (reach_step demo_pass demo_start EvBegin);
      [apply demo_after_reachable_0 | apply step_begin].
  - vm_compute. reflexivity.
  - left. reflexivity.
  - vm_compute. reflexivity.
Defined.

(** C7. (1) When the option at place [i] has failed [k] times in a row
    at the smallest step and the loop body fails for it once more, the
    step is 1, no skip was pending, the failure count becomes [k + 1] and
    exactly [8 * (k + 1)] skips are added. (2) In every state of the
    search no option has a negative number of pending skips. (3) The
    pending skips of an option grow over a transition only when the
    transition is the loop body of that option failing at step 1. *)
Theorem skip_backoff {World : Type}
    (run_pass : list TuningOption -> World -> Result float * World) :
  (forall (i k : nat) (t t' : Tuner World) (o o' : TuningOption),
      streak run_pass i k t ->
      tune_option run_pass i t = (Ok Postponed, t') ->
      tuning_options t !! i = Some o ->
      tuning_options t' !! i = Some o' ->
      steps o = 1 /\ remaining_skips o = 0
      /\ skip_count o' = Z.of_nat (S k)
      /\ remaining_skips o' = remaining_skips o + 8 * Z.of_nat (S k))
  /\
  (forall (t : Tuner World) (o : TuningOption),
      reachable run_pass t ->
      o ∈ tuning_options t ->
      0 <= remaining_skips o)
  /\
  (forall (t t' : Tuner World) (ev : Event) (j : nat) (o o' : TuningOption),
      reachable run_pass t ->
      step run_pass t ev t' ->
      tuning_options t !! j = Some o ->
      tuning_options t' !! j = Some o' ->
      remaining_skips o < remaining_skips o' ->
      ev = EvOption j Postponed /\ steps o = 1).
Proof.
  split; [| split].
  - intros i k t t' o o' Hstreak Hrun Hi Hi'.
    pose proof (streak_reachable run_pass i k t Hstreak) as Hreach.
    pose proof (reachable_inv run_pass t Hreach) as [Hbest Hok].
    pose proof (streak_skip_count run_pass i k t o Hstreak Hi) as Hsc.
    destruct (tune_option_ok run_pass t i _ t' Hbest Hrun)
      as (o0 & Hi0 & Hopts & _ & _ & Hspec).
    rewrite Hi in Hi0. injection Hi0 as <-.
    rewrite Hopts, list_lookup_insert_eq in Hi' by (by eapply lookup_lt_Some).
    injection Hi' as <-.
    destruct (proj1 (Forall_lookup _ _) Hok i o Hi) as (Hst & Hrs & _).
    cbn in Hspec. destruct Hspec as (Hneg & Hsteps & _).
    destruct o; option_norm. lia.
  - intros t o Hreach Hin.
    pose proof (reachable_inv run_pass t Hreach) as [_ Hok].
    by destruct (proj1 (Forall_forall _ _) Hok o Hin) as (_ & Hrs & _).
  - intros t t' ev j o o' Hreach Hstep Hj Hj' Hlt.
    pose proof (reachable_inv run_pass t Hreach) as [Hbest Hok].
    destruct (proj1 (Forall_lookup _ _) Hok j o Hj) as (Hst & Hrs & Hsc).
    destruct Hstep as [t | t i b t' Hrun | t].
    + rewrite begin_pass_options, Hj in Hj' by done.
      injection Hj' as <-. lia.
    + destruct (tune_option_ok run_pass t i b t' Hbest Hrun)
        as (o0 & Hi0 & Hopts & _ & _ & Hspec).
      rewrite Hopts in Hj'. destruct (decide (i = j)) as [-> | Hne].
      * rewrite Hj in Hi0. injection Hi0 as <-.
        rewrite list_lookup_insert_eq in Hj' by (by eapply lookup_lt_Some).
        injection Hj' as <-.
        destruct b; cbn in Hspec; destruct o; option_norm; try lia.
        split; [done | lia].
      * rewrite list_lookup_insert_ne, Hj in Hj' by done.
        injection Hj' as <-. lia.
    + rewrite check_postponed_lookup, Hj in Hj' by done.
      cbn in Hj'. injection Hj' as <-.
      destruct (negb (improved t) && negb (retry_postponed t));
        destruct o; option_norm; cbn in Hlt; lia.
Qed.

(** C7 on the third trial of the one-option search: the first failure at
    step 1 adds eight skips. *)
Lemma skip_backoff_witness :
  steps flat_option_2 = 1 /\ remaining_skips flat_option_2 = 0
  /\ skip_count flat_option_3 = Z.of_nat 1
  /\ remaining_skips flat_option_3
     = remaining_skips flat_option_2 + 8 * Z.of_nat 1.
Proof.
  apply (proj1 (skip_backoff flat_pass) 0%nat 0%nat (flat_after 2)
           (flat_after 3) flat_option_2 flat_option_3).
  - apply flat_after_streak_2.
  - vm_compute. reflexivity.
  - vm_compute. reflexivity.
  - vm_compute. reflexivity.
Defined.

(** * [make_chunks] and [make_batches]: the batches of a corpus *)

Section Chunks.

Context {A : Type}.
Implicit Types (l : list A) (c m k : nat).

(** The chunks of [l] of size [c], the first [m] of them. *)
Lemma concat_chunks l c m :
  concat (map (fun k => take c (drop (k * c) l)) (seq 0 m)) = take (m * c) l.
Proof.
  induction m as [|m IH]; [done |].
  rewrite seq_S, map_app, concat_app, IH. cbn.
  rewrite app_nil_r, take_take_drop. f_equal. lia.
Qed.

(** A slice that starts inside the list, at a multiple of the chunk
    size. *)
Lemma slice_chunk l (cs : Z) k :
  0 < cs ->
  Z.of_nat k * cs < Z.of_nat (length l) ->
  Py.slice l (Z.of_nat k * cs)
    (Z.min (Z.of_nat k * cs + cs) (Z.of_nat (length l)))
  = take (Z.to_nat cs) (drop (k * Z.to_nat cs) l).
Proof.
  intros Hcs Hk. unfold Py.slice, Py.slice_bound.
  destruct (Z.ltb_spec (Z.of_nat k * cs) 0) as [Hneg | _]; [lia |].
  destruct (Z.ltb_spec (Z.min (Z.of_nat k * cs + cs) (Z.of_nat (length l))) 0)
    as [Hneg | _]; [lia |].
  replace (Z.to_nat (Z.min (Z.of_nat k * cs) (Z.of_nat (length l))))
    with (k * Z.to_nat cs)%nat by lia.
  destruct (Z.le_gt_cases (Z.of_nat k * cs + cs) (Z.of_nat (length l)))
    as [Hfull | Hlast].
  - f_equal. lia.
  - rewrite !take_ge; [done | |]; rewrite length_drop; lia.
Qed.

Lemma chunk_count_covers (n cs : Z) :
  0 < cs -> 0 <= n -> n <= Z.of_nat (chunk_count n cs) * cs.
Proof.
  intros Hcs Hn. unfold chunk_count.
  destruct (Z.ltb_spec 0 n) as [Hpos | Hzero]; [| lia].
  pose proof (Z.div_pos (n - 1) cs ltac:(lia) Hcs).
  pose proof (Z.mul_succ_div_gt (n - 1) cs Hcs).
  rewrite Z2Nat.id by lia. lia.
Qed.

Lemma chunk_count_inside (n cs : Z) k :
  0 < cs -> (k < chunk_count n cs)%nat -> Z.of_nat k * cs < n.
Proof.
  intros Hcs Hk. unfold chunk_count in Hk.
  destruct (Z.ltb_spec 0 n) as [Hpos | Hzero]; [| lia].
  pose proof (Z.div_pos (n - 1) cs ltac:(lia) Hcs).
  pose proof (Z.mul_div_le (n - 1) cs Hcs).
  assert (Z.of_nat k <= (n - 1) / cs) by lia.
  nia.
Qed.

(** [make_chunks] with a positive chunk size, as a list of prefixes of
    suffixes. *)
Lemma make_chunks_pos l (cs : Z) :
  0 < cs ->
  make_chunks l cs
  = Ok (map (fun k => take (Z.to_nat cs) (drop (k * Z.to_nat cs) l))
          (seq 0 (chunk_count (Z.of_nat (length l)) cs))).
Proof.
  intros Hcs. unfold make_chunks, Py.range, Py.range_len.
  destruct (Z.eqb_spec cs 0) as [-> | _]; [lia |].
  destruct (Z.ltb_spec 0 cs) as [_ | Hneg]; [| lia].
  cbn. f_equal. rewrite map_map.
  replace (Z.of_nat (length l) - 0 - 1) with (Z.of_nat (length l) - 1) by lia.
  fold (chunk_count (Z.of_nat (length l)) cs).
  apply map_ext_in. intros k Hk%in_seq.
  replace (0 + Z.of_nat k * cs) with (Z.of_nat k * cs) by lia.
  apply slice_chunk; [done |].
  apply chunk_count_inside; [done | lia].
Qed.

Lemma make_chunks_concat l (cs : Z) chunks :
  0 < cs -> make_chunks l cs = Ok chunks -> concat chunks = l.
Proof.
  intros Hcs. rewrite make_chunks_pos by done. intros [= <-].
  rewrite concat_chunks. apply take_ge.
  pose proof (chunk_count_covers (Z.of_nat (length l)) cs Hcs ltac:(lia)).
  lia.
Qed.

Lemma make_chunks_lookup l (cs : Z) chunks k b :
  0 < cs -> make_chunks l cs = Ok chunks -> chunks !! k = Some b ->
  Z.of_nat (length b) = Z.min cs (Z.of_nat (length l) - Z.of_nat k * cs)
  /\ Z.of_nat k * cs < Z.of_nat (length l).
Proof.
  intros Hcs. rewrite make_chunks_pos by done. intros [= <-] Hk.
  rewrite list_lookup_fmap in Hk.
  destruct (seq 0 _ !! k) as [k'|] eqn:Hseq; [| done].
  apply lookup_seq in Hseq as [-> Hlt]. cbn in Hk. injection Hk as <-.
  pose proof (chunk_count_inside _ cs k Hcs Hlt).
  rewrite length_take, length_drop. lia.
Qed.

(** [make_batches] for a positive number of batches. *)
Lemma make_batches_pos l (w : Z) :
  0 < w ->
  make_batches l w = make_chunks l (Z.max 1 (Z.of_nat (length l) / w)).
Proof.
  intros Hw. unfold make_batches.
  by destruct (Z.eqb_spec w 0) as [-> | _]; [lia |].
Qed.

End Chunks.




(** * The scoring pass *)

(** [engines[worker_id - 1]] over the places of the sessions. *)
Lemma getitem_place (n : nat) (i : Z) :
  0 <= i ->
  getitem (seq 0 n) i
  = if i <? Z.of_nat n then Ok (Z.to_nat i) else Raise IndexError.
Proof.
  intros Hi. unfold getitem. rewrite length_seq.
  destruct (Z.ltb_spec i 0) as [Hneg | _]; [lia |].
  destruct (Z.leb_spec 0 i) as [_ | Hneg]; [| lia].
  destruct (Z.ltb_spec i (Z.of_nat n)) as [Hlt | Hge]; [| done].
  cbn. rewrite lookup_seq_lt by lia. done.
Qed.

(** A call that is submitted with four positional arguments ends in a
    [TypeError] and touches nothing. *)
Lemma call_run_engine_arity engine worker_id options batch st :
  call_run_engine [ArgEngine engine; ArgInt worker_id; ArgOptions options;
                   ArgPositions batch] st
  = (Raised TypeError, st).
Proof. reflexivity. Qed.

(** The submitting loop: it leaves the sessions and the positions as they
    were; it raises [IndexError] when there are more batches than sessions
    left, and otherwise every future holds a [TypeError]. *)
Lemma submit_batches_spec options batches (worker_id : Z) futures st :
  1 <= worker_id <= Z.of_nat (length (engines st)) + 1 ->
  submit_batches options batches worker_id futures st
  = (if worker_id - 1 + Z.of_nat (length batches)
        <=? Z.of_nat (length (engines st))
     then Ok (futures ++ replicate (length batches) (Raised TypeError))
     else Raise IndexError, st).
Proof.
  revert worker_id futures.
  induction batches as [| batch rest IH]; intros worker_id futures Hid.
  - cbn [submit_batches length replicate]. rewrite app_nil_r.
    destruct (Z.leb_spec (worker_id - 1 + Z.of_nat 0)
                (Z.of_nat (length (engines st)))) as [Hle | Hgt]; [done | lia].
  - cbn [submit_batches]. rewrite getitem_place by lia.
    destruct (Z.ltb_spec (worker_id - 1) (Z.of_nat (length (engines st))))
      as [Hlt | Hge].
    + rewrite call_run_engine_arity, IH by lia.
      cbn [length replicate]. rewrite <- app_assoc. cbn [app].
      destruct (Z.leb_spec (worker_id + 1 - 1 + Z.of_nat (length rest))
                  (Z.of_nat (length (engines st))));
        destruct (Z.leb_spec (worker_id - 1 + Z.of_nat (S (length rest)))
                    (Z.of_nat (length (engines st)))); done || lia.
    + destruct (Z.leb_spec (worker_id - 1 + Z.of_nat (length (batch :: rest)))
                  (Z.of_nat (length (engines st)))); [cbn in *; lia | done].
Qed.

(** No future of the waiting loop is cancelled unless it is [Cancelled]. *)
Lemma await_futures_ok futures :
  Forall (fun f => Future_cancelled f = false) futures ->
  await_futures futures = Ok tt.
Proof.
  induction 1 as [| f rest Hf _ IH]; [done |].
  cbn. by rewrite Hf.
Qed.

Lemma await_futures_replicate n e :
  await_futures (replicate n (Raised e)) = Ok tt.
Proof. apply await_futures_ok, Forall_replicate. done. Qed.

(** [run_pass] in closed form, for a positive number of workers. *)
Lemma run_pass_closed float_pow (w : Z) options k st batches :
  make_batches (seq 0 (length (positions st))) w = Ok batches ->
  run_pass float_pow w options k st
  = (if Z.of_nat (length batches) <=? Z.of_nat (length (engines st))
     then calc_avg_error float_pow k (positions st)
     else Raise IndexError, st).
Proof.
  intros Hb. unfold run_pass. rewrite Hb, submit_batches_spec by lia.
  change (1 - 1 + Z.of_nat (length batches)) with (Z.of_nat (length batches)).
  destruct (Z.leb_spec (Z.of_nat (length batches))
              (Z.of_nat (length (engines st)))); [| done].
  unfold complete_pass. cbn [app]. by rewrite await_futures_replicate.
Qed.

(** The pass leaves the sessions and the positions as it found them. *)
Lemma run_pass_state float_pow (w : Z) options k st :
  (run_pass float_pow w options k st).2 = st.
Proof.
  destruct (make_batches (seq 0 (length (positions st))) w) as [batches | e]
    eqn:Hb.
  - by rewrite (run_pass_closed _ _ _ _ _ _ Hb).
  - unfold run_pass. by rewrite Hb.
Qed.

(** One statement after the other, in a session. *)
Lemma Run_bind_eq {A B} (m : Run A) (f : A -> Run B) s :
  (m ≫= f) s
  = match m s with
    | (Ok a, s') => f a s'
    | (Raise e, s') => (Raise e, s')
    end.
Proof. reflexivity. Qed.

(** A loop that only sends commands: every command is appended to what
    the engine has been sent, and nothing else changes. *)
Lemma for_each_send {A} (l : list A) (cmd : A -> string) e ps :
  for_each l (fun x => send_command (cmd x)) (e, ps)
  = (Ok tt,
     (mkEngine (stdin_log e ++ map (fun x => (cmd x ++ PyStr.newline)%string) l)
        (stdout e) (exits_on_quit e) (running e), ps)).
Proof.
  revert e. induction l as [| x l IH]; intros e.
  - cbn. rewrite app_nil_r. by destruct e.
  - cbn [for_each]. rewrite Run_bind_eq. unfold send_command at 1.
    cbn [fst snd]. rewrite IH. cbn. by rewrite <- app_assoc.
Qed.

(** C1, the code against the claim. [run_pass] submits [run_engine] with
    four positional arguments (the session, the worker number, the options
    and the batch) while the function takes three: every call ends in a
    [TypeError] that the future keeps, so a pass leaves every session and
    every position, hence every score, as it found them. On the corpus of
    two positions and an engine that answers [scores 42;-7], [run_engine]
    called with its three arguments writes the scores 42 and -7, and the
    pass leaves both scores at 0. *)
Theorem run_pass_scores_never_written
    (float_pow : float -> float -> Result float) (w : Z)
    (options : list TuningOption) (k : float) (st : PassState) :
  (run_pass float_pow w options k st).2 = st
  /\ map score (run_engine options [0; 1]%nat (demo_engine, demo_corpus)).2.2
     = [42; -7]
  /\ map score (positions (run_pass float_pow 1 options k demo_pass_state).2)
     = [0; 0].
Proof.
  split; [apply run_pass_state |]. split.
  - unfold run_engine, run_engine_body.
    rewrite Run_bind_eq. unfold send_command at 1. cbn [fst snd].
    rewrite Run_bind_eq. unfold wait_for_command at 1.
    cbn [fst snd]. unfold demo_engine.
    replace (Engine_wait_for_command "uciok"
               (Engine_send_command "uci"
                  (mkEngine [] ["id name demo"; "uciok"; "readyok";
                                "scores 42;-7"]%string true true)))
      with (Some "uciok"%string,
            mkEngine [("uci" ++ PyStr.newline)%string]
              ["readyok"; "scores 42;-7"]%string true true)
      by (vm_compute; reflexivity).
    rewrite Run_bind_eq, for_each_send. cbn [stdin_log stdout exits_on_quit running].
    vm_compute. reflexivity.
  - rewrite run_pass_state. reflexivity.
Qed.



(** C9. On the empty corpus [calc_avg_error] divides by zero and raises
    [ZeroDivisionError]; whenever it returns a value, the corpus is not
    empty. *)
Theorem calc_avg_error_empty_corpus
    (float_pow : float -> float -> Result float) (k : float) :
  calc_avg_error float_pow k [] = Raise ZeroDivisionError
  /\ (forall positions v,
        calc_avg_error float_pow k positions = Ok v -> positions <> []).
Proof.
  assert (Hempty : calc_avg_error float_pow k [] = Raise ZeroDivisionError)
    by (vm_compute; reflexivity).
  split; [exact Hempty |].
  intros positions v Hv ->. by rewrite Hempty in Hv.
Qed.

(** C10. When the corpus size [n] and the worker count [w] are such that
    [n mod w] exceeds [n // w], [make_batches] yields more than [w + 1]
    batches, [main] has started [w + 1] sessions, and the pass raises
    [IndexError] at [engines[worker_id - 1]]. *)
Theorem batches_exceed_sessions
    (float_pow : float -> float -> Result float) (spawn : nat -> Engine)
    (options : list TuningOption) (k : float)
    (corpus : list TestPosition) (w : Z) :
  1 <= w <= Z.of_nat (length corpus) ->
  Z.of_nat (length corpus) / w < Z.of_nat (length corpus) mod w ->
  exists batches,
    make_batches (seq 0 (length corpus)) w = Ok batches
    /\ w + 1 < Z.of_nat (length batches)
    /\ Z.of_nat (length (start_engines spawn w)) = w + 1
    /\ (run_pass float_pow w options k
          (mkPassState (start_engines spawn w) corpus)).1
       = Raise IndexError.
Proof.
  intros [Hw Hn] Hrem.
  set (n := Z.of_nat (length corpus)) in *.
  assert (Hq : 1 <= n / w) by (apply Z.div_le_lower_bound; lia).
  pose proof (make_batches_pos (seq 0 (length corpus)) w ltac:(lia)) as Hb.
  rewrite make_chunks_pos, length_seq in Hb by (rewrite length_seq; lia).
  fold n in Hb. replace (Z.max 1 (n / w)) with (n / w) in Hb by lia.
  assert (Hengines : Z.of_nat (length (start_engines spawn w)) = w + 1).
  { unfold start_engines. rewrite length_map, length_seq. lia. }
  assert (Hcount : w + 1 < Z.of_nat (chunk_count n (n / w))).
  { unfold chunk_count. destruct (Z.ltb_spec 0 n) as [_ | Hz]; [| lia].
    pose proof (Z.div_mod n w ltac:(lia)) as Hdm.
    assert (w + 1 <= (n - 1) / (n / w)).
    { apply Z.div_le_lower_bound; [lia | nia]. }
    lia. }
  eexists. split; [exact Hb |].
  rewrite length_map, length_seq.
  split; [exact Hcount |]. split; [exact Hengines |].
  erewrite run_pass_closed by exact Hb.
  cbn [engines fst]. rewrite length_map, length_seq.
  destruct (Z.leb_spec (Z.of_nat (chunk_count n (n / w)))
              (Z.of_nat (length (start_engines spawn w)))); [lia | done].
Qed.

(** C10 for 11 positions and 4 workers: six batches, five sessions. *)
Lemma batches_exceed_sessions_witness :
  exists batches,
    make_batches (seq 0 (length (replicate 11 (new_TestPosition "" 0)))) 4
    = Ok batches
    /\ 4 + 1 < Z.of_nat (length batches)
    /\ Z.of_nat (length (start_engines (fun _ => demo_engine) 4)) = 4 + 1
    /\ (run_pass (fun _ _ => Ok 1%float) 4 [] K
          (mkPassState (start_engines (fun _ => demo_engine) 4)
             (replicate 11 (new_TestPosition "" 0)))).1
       = Raise IndexError.
Proof.
  apply (batches_exceed_sessions (fun _ _ => Ok 1%float)
           (fun _ => demo_engine) [] K
           (replicate 11 (new_TestPosition "" 0)) 4).
  - vm_compute. split; discriminate.
  - vm_compute. reflexivity.
Defined.

(** * The coordinate search: further properties *)

Section SearchFacts.

Context {World : Type}.
Variable run_pass : list TuningOption -> World -> Result float * World.
Implicit Types (t : Tuner World) (o : TuningOption) (i : nat).

(** The postponed check leaves the error alone. *)
Lemma check_postponed_best_err t :
  best_err (check_postponed t) = best_err t.
Proof.
  unfold check_postponed.
  destruct (negb (improved t) && negb (retry_postponed t)); [| done].
  destruct (reset_postponed (best_list t) false) as [best any].
  by destruct (best_options t).
Qed.

(** The flag that the loop of the postponed check computes. *)
Lemma reset_postponed_snd best any :
  (reset_postponed best any).2
  = any || existsb (fun o => 0 <? remaining_skips o) best.
Proof.
  revert any. induction best as [|o rest IH]; intros any.
  - cbn. by rewrite orb_false_r.
  - cbn [reset_postponed existsb].
    replace (remaining_skips (set_steps 1 o)) with (remaining_skips o)
      by (by destruct o).
    destruct (0 <? remaining_skips o).
    + specialize (IH true).
      destruct (reset_postponed rest true) as [rest' any']. cbn in *.
      rewrite IH. by rewrite orb_true_r.
    + specialize (IH any).
      destruct (reset_postponed rest any) as [rest' any']. cbn in *.
      by rewrite IH.
Qed.

(** What one transition does to the option at place [j]. *)
Lemma step_lookup t ev t' j o :
  reachable run_pass t ->
  step run_pass t ev t' ->
  tuning_options t !! j = Some o ->
  exists o',
    tuning_options t' !! j = Some o'
    /\ (o' = o
        \/ (exists b, ev = EvOption j b /\ o' = after_branch b o
                      /\ branch_guard b o)
        \/ (ev = EvCheck
            /\ o' = set_remaining_skips (Z.min 0 (remaining_skips o))
                      (set_steps 1 o))).
Proof.
  intros Hreach Hstep Hj.
  pose proof (reachable_inv run_pass t Hreach) as [Hbest Hok].
  destruct Hstep as [t | t i b t' Hrun | t].
  - exists o. rewrite begin_pass_options by done. auto.
  - destruct (tune_option_ok run_pass t i b t' Hbest Hrun)
      as (o0 & Hi0 & Hopts & _ & _ & Hspec).
    rewrite Hopts. destruct (decide (i = j)) as [-> | Hne].
    + rewrite Hj in Hi0. injection Hi0 as <-.
      exists (after_branch b o).
      rewrite list_lookup_insert_eq by (by eapply lookup_lt_Some).
      split; [done |]. right. left. exists b.
      split; [done |]. split; [done |].
      destruct b; cbn in Hspec; cbn; tauto.
    + exists o. rewrite list_lookup_insert_ne by done. auto.
  - rewrite check_postponed_lookup, Hj by done. cbn.
    destruct (negb (improved t) && negb (retry_postponed t)); eauto 6.
Qed.

(** The length of the option list over one transition. *)
Lemma step_length t ev t' :
  reachable run_pass t ->
  step run_pass t ev t' ->
  length (tuning_options t') = length (tuning_options t).
Proof.
  intros Hreach Hstep.
  pose proof (reachable_inv run_pass t Hreach) as [Hbest Hok].
  destruct Hstep as [t | t i b t' Hrun | t].
  - by rewrite begin_pass_options.
  - destruct (tune_option_ok run_pass t i b t' Hbest Hrun)
      as (o0 & Hi0 & Hopts & _).
    by rewrite Hopts, length_insert.
  - unfold check_postponed.
    destruct (negb (improved t) && negb (retry_postponed t)) eqn:Hc; [| done].
    destruct (reset_postponed (best_list t) false) as [best any] eqn:E.
    assert (Hlen : length best = length (best_list t)).
    { change best with (best, any).1. rewrite <- E, reset_postponed_fst.
      apply length_map. }
    rewrite best_list_in_step in Hlen by done.
    unfold best_in_step in Hbest.
    destruct (best_options t) as [l|]; [| done].
    destruct Hbest as [_ Him]. by rewrite Him in Hc.
Qed.

(** A property of options that every transition keeps holds in every
    state of the search. *)
Lemma reachable_options (P : TuningOption -> Prop) :
  (forall o, fresh o -> P o) ->
  (forall b o,
      option_ok o -> P o -> branch_guard b o -> P (after_branch b o)) ->
  (forall o, option_ok o -> P o ->
     P (set_remaining_skips (Z.min 0 (remaining_skips o)) (set_steps 1 o))) ->
  forall t, reachable run_pass t -> Forall P (tuning_options t).
Proof.
  intros Hfresh Hbranch Hcheck t Hreach.
  induction Hreach as [options err w Hf | t ev t' Hreach IH Hstep].
  - cbn. eapply Forall_impl; [exact Hf | exact Hfresh].
  - pose proof (reachable_inv run_pass t Hreach) as [Hbest Hok].
    apply Forall_lookup. intros j o' Hj'.
    assert (Hlen : (j < length (tuning_options t))%nat).
    { rewrite <- (step_length t ev t') by done. by eapply lookup_lt_Some. }
    destruct (lookup_lt_is_Some_2 _ _ Hlen) as [o Hj].
    pose proof (proj1 (Forall_lookup _ _) IH j o Hj) as HP.
    pose proof (proj1 (Forall_lookup _ _) Hok j o Hj) as Ho.
    destruct (step_lookup t ev t' j o Hreach Hstep Hj)
      as (o1 & Hj1 & Hcases).
    rewrite Hj' in Hj1. injection Hj1 as <-.
    destruct Hcases as [-> | [(b & _ & -> & Hguard) | [_ ->]]];
      [done | by apply Hbranch | by apply Hcheck].
Qed.

End SearchFacts.

(** [best_options] mirrors [config.tuning_options]: in every state of
    the search the two lists hold equal records, so that the assignment
    [config.tuning_options = best_options] at the head of a turn changes
    no value. *)
Theorem best_options_mirror {World : Type}
    (run_pass : list TuningOption -> World -> Result float * World)
    (t : Tuner World) :
  reachable run_pass t ->
  best_list t = tuning_options t
  /\ tuning_options (begin_pass t) = tuning_options t.
Proof.
  intros Hreach.
  pose proof (reachable_inv run_pass t Hreach) as [Hbest _].
  split; [by apply best_list_in_step | by apply begin_pass_options].
Qed.

(** The mirror after three turns of the worked run. *)
Lemma best_options_mirror_witness :
  best_list (demo_after 3) = tuning_options (demo_after 3)
  /\ tuning_options (begin_pass (demo_after 3)) = tuning_options (demo_after 3).
Proof.
  apply (best_options_mirror demo_pass (demo_after 3)).
  apply demo_after_reachable_3.
Defined.

(** [best_err] never rises: over any transition of the search it stays
    as it is or becomes strictly smaller, and it becomes smaller only in
    a loop body that takes an improving path. *)
Theorem best_err_never_rises {World : Type}
    (run_pass : list TuningOption -> World -> Result float * World)
    (t t' : Tuner World) (ev : Event) :
  reachable run_pass t ->
  step run_pass t ev t' ->
  best_err t' = best_err t
  \/ ((best_err t' <? best_err t)%float = true
      /\ exists i, ev = EvOption i ImprovedForward
                   \/ ev = EvOption i ImprovedBackward).
Proof.
  intros Hreach Hstep.
  pose proof (reachable_inv run_pass t Hreach) as [Hbest Hok].
  destruct Hstep as [t | t i b t' Hrun | t].
  - by left.
  - destruct (tune_option_ok run_pass t i b t' Hbest Hrun)
      as (o0 & Hi0 & Hopts & _ & _ & Hspec).
    destruct b; cbn in Hspec.
    + left. by destruct Hspec as (_ & _ & He & _).
    + right. destruct Hspec as (_ & _ & Hlt & _). eauto.
    + right. destruct Hspec as (_ & e1 & w1 & _ & _ & _ & Hlt & _). eauto.
    + left. by destruct Hspec as (_ & _ & _ & He & _).
    + left. by destruct Hspec as (_ & _ & _ & He & _).
  - left. apply check_postponed_best_err.
Qed.

(** The error over the loop body of the second option at the head of the
    worked run, which improves it. *)
Lemma best_err_never_rises_witness :
  best_err (tune_option demo_pass 1 demo_head).2 = best_err demo_head
  \/ ((best_err (tune_option demo_pass 1 demo_head).2 <? best_err demo_head)%float
      = true
      /\ exists i, EvOption 1 ImprovedForward = EvOption i ImprovedForward
                   \/ EvOption 1 ImprovedForward = EvOption i ImprovedBackward).
Proof.
  apply (best_err_never_rises demo_pass demo_head
           (tune_option demo_pass 1 demo_head).2 (EvOption 1 ImprovedForward)).
  - unfold demo_head. eapply reach_step; [| apply step_begin].
    apply demo_after_reachable_0.
  - apply step_option. vm_compute. reflexivity.
Defined.
(** The search never adds, removes, reorders or renames an option: over
    any transition the list keeps its length, and every option its name,
    its [is_part] flag and its original name. *)
Theorem options_keep_identity {World : Type}
    (run_pass : list TuningOption -> World -> Result float * World)
    (t t' : Tuner World) (ev : Event) :
  reachable run_pass t ->
  step run_pass t ev t' ->
  length (tuning_options t') = length (tuning_options t)
  /\ map name (tuning_options t') = map name (tuning_options t)
  /\ map is_part (tuning_options t') = map is_part (tuning_options t)
  /\ map orig_name (tuning_options t') = map orig_name (tuning_options t).
Proof.
  intros Hreach Hstep.
  pose proof (step_length run_pass t ev t' Hreach Hstep) as Hlen.
  assert (Hfield : forall {A} (f : TuningOption -> A),
    (forall b o, f (after_branch b o) = f o) ->
    (forall o, f (set_remaining_skips (Z.min 0 (remaining_skips o))
                    (set_steps 1 o)) = f o) ->
    map f (tuning_options t') = map f (tuning_options t)).
  { intros A f Hb Hc. apply list_eq. intros j.
    rewrite !list_lookup_fmap.
    destruct (tuning_options t !! j) as [o|] eqn:Hj.
    - destruct (step_lookup run_pass t ev t' j o Hreach Hstep Hj)
        as (o' & -> & [-> | [(b & _ & -> & _) | [_ ->]]]); cbn;
        by rewrite ?Hb, ?Hc.
    - apply lookup_ge_None in Hj. rewrite <- Hlen in Hj.
      apply lookup_ge_None in Hj. by rewrite Hj. }
  split; [done |].
  repeat split; apply Hfield; intros; by repeat match goal with
    | b : Branch |- _ => destruct b
    | o : TuningOption |- _ => destruct o
    end.
Qed.

(** The names over the loop body of the second option at the head of the
    worked run. *)
Lemma options_keep_identity_witness :
  length (tuning_options (tune_option demo_pass 1 demo_head).2)
  = length (tuning_options demo_head)
  /\ map name (tuning_options (tune_option demo_pass 1 demo_head).2)
     = map name (tuning_options demo_head)
  /\ map is_part (tuning_options (tune_option demo_pass 1 demo_head).2)
     = map is_part (tuning_options demo_head)
  /\ map orig_name (tuning_options (tune_option demo_pass 1 demo_head).2)
     = map orig_name (tuning_options demo_head).
Proof.
  apply (options_keep_identity demo_pass demo_head
           (tune_option demo_pass 1 demo_head).2 (EvOption 1 ImprovedForward)).
  - unfold demo_head. eapply reach_step; [| apply step_begin].
    apply demo_after_reachable_0.
  - apply step_option. vm_compute. reflexivity.
Defined.

(** What the loop body does to the value of its option. On the path of
    a skip or of a failed trial, the value, the direction and the count of
    improvements are afterwards what they were before: a trial value that
    did not lower the error is taken back. On an improving path the value
    has moved by exactly one step, forwards in the current direction, or
    backwards with the direction reversed. No other option changes. *)
Theorem trial_moves_value {World : Type}
    (run_pass : list TuningOption -> World -> Result float * World)
    (t t' : Tuner World) (i : nat) (b : Branch) (o : TuningOption) :
  reachable run_pass t ->
  tuning_options t !! i = Some o ->
  tune_option run_pass i t = (Ok b, t') ->
  exists o',
    tuning_options t' !! i = Some o'
    /\ (forall j, j <> i -> tuning_options t' !! j = tuning_options t !! j)
    /\ match b with
       | ImprovedForward =>
           value o' = value o + steps o * direction o
           /\ direction o' = direction o
           /\ improvements o' = improvements o + 1
       | ImprovedBackward =>
           value o' = value o - steps o * direction o
           /\ direction o' = - direction o
           /\ improvements o' = improvements o + 1
       | Skipped | StepReduced | Postponed =>
           value o' = value o
           /\ direction o' = direction o
           /\ improvements o' = improvements o
       end.
Proof.
  intros Hreach Hi Hrun.
  pose proof (reachable_inv run_pass t Hreach) as [Hbest Hok].
  destruct (tune_option_ok run_pass t i b t' Hbest Hrun)
    as (o0 & Hi0 & Hopts & _).
  rewrite Hi in Hi0. injection Hi0 as <-.
  exists (after_branch b o). rewrite Hopts.
  split; [by apply list_lookup_insert_eq; eapply lookup_lt_Some |].
  split; [by intros j Hj; apply list_lookup_insert_ne |].
  destruct o, b; option_norm; repeat split; lia.
Qed.

(** The value of the second option over its first loop body in the
    worked run: from 0 to 16. *)
Lemma trial_moves_value_witness :
  exists o',
    tuning_options (tune_option demo_pass 1 demo_head).2 !! 1%nat = Some o'
    /\ (forall j, j <> 1%nat ->
          tuning_options (tune_option demo_pass 1 demo_head).2 !! j
          = tuning_options demo_head !! j)
    /\ value o' = value (new_TuningOption "Beta" 0 false "")
                  + steps (new_TuningOption "Beta" 0 false "")
                    * direction (new_TuningOption "Beta" 0 false "")
    /\ direction o' = direction (new_TuningOption "Beta" 0 false "")
    /\ improvements o' = improvements (new_TuningOption "Beta" 0 false "") + 1.
Proof.
  apply (trial_moves_value demo_pass demo_head
           (tune_option demo_pass 1 demo_head).2 1 ImprovedForward
           (new_TuningOption "Beta" 0 false "")).
  - unfold demo_head. eapply reach_step; [| apply step_begin].
    apply demo_after_reachable_0.
  - vm_compute. reflexivity.
  - vm_compute. reflexivity.
Defined.

(** In every state of the search, every option has direction 1 or -1,
    at least as many iterations as improvements (and none negative), and
    step 1 whenever it has a failure counted or a skip pending. *)
Theorem option_invariants {World : Type}
    (run_pass : list TuningOption -> World -> Result float * World)
    (t : Tuner World) (o : TuningOption) :
  reachable run_pass t ->
  o ∈ tuning_options t ->
  (direction o = 1 \/ direction o = -1)
  /\ 0 <= improvements o <= iterations o
  /\ 0 <= skip_count o
  /\ (0 < skip_count o \/ 0 < remaining_skips o -> steps o = 1).
Proof.
  intros Hreach Hin.
  refine (proj1 (Forall_forall _ _)
            (reachable_options run_pass
               (fun o => (direction o = 1 \/ direction o = -1)
                         /\ 0 <= improvements o <= iterations o
                         /\ 0 <= skip_count o
                         /\ (0 < skip_count o \/ 0 < remaining_skips o
                             -> steps o = 1))
               _ _ _ t Hreach) o Hin).
  - intros o1 (Hs & Hd & Him & Hit & Hrs & Hsc).
    rewrite Hd, Him, Hit, Hrs, Hsc. lia.
  - intros b o1 (Hs & Hr & Hk) (Hd & Him & Hsc & Hone) Hguard.
    destruct o1 as [n v p on s d im it rs sc]. option_norm.
    destruct b; cbn in Hguard; option_norm; lia.
  - intros o1 (Hs & Hr & Hk) (Hd & Him & Hsc & Hone).
    destruct o1 as [n v p on s d im it rs sc]. option_norm. lia.
Qed.

(** The first option at the head of the fourth turn of the worked run:
    one failure counted, eight skips pending, step 1. *)
Lemma option_invariants_witness :
  (direction demo_postponed_option = 1 \/ direction demo_postponed_option = -1)
  /\ 0 <= improvements demo_postponed_option <= iterations demo_postponed_option
  /\ 0 <= skip_count demo_postponed_option
  /\ (0 < skip_count demo_postponed_option
      \/ 0 < remaining_skips demo_postponed_option
      -> steps demo_postponed_option = 1).
Proof.
  apply (option_invariants demo_pass demo_skipping demo_postponed_option).
  - apply demo_skipping_reachable.
  - vm_compute. left.
Defined.

(** The step of an option never grows: over any transition it stays as
    it is or becomes smaller, also in a loop body that improves the
    error. *)
Theorem steps_never_grow {World : Type}
    (run_pass : list TuningOption -> World -> Result float * World)
    (t t' : Tuner World) (ev : Event) (j : nat) (o o' : TuningOption) :
  reachable run_pass t ->
  step run_pass t ev t' ->
  tuning_options t !! j = Some o ->
  tuning_options t' !! j = Some o' ->
  1 <= steps o' <= steps o.
Proof.
  intros Hreach Hstep Hj Hj'.
  pose proof (reachable_inv run_pass t Hreach) as [Hbest Hok].
  destruct (proj1 (Forall_lookup _ _) Hok j o Hj) as (Hs & Hr & Hk).
  destruct (step_lookup run_pass t ev t' j o Hreach Hstep Hj)
    as (o1 & Hj1 & Hcases).
  rewrite Hj' in Hj1. injection Hj1 as <-.
  destruct Hcases as [-> | [(b & _ & -> & Hguard) | [_ ->]]].
  - lia.
  - destruct o as [n v p on s d im it rs sc]. option_norm.
    destruct b; cbn in Hguard; option_norm; try lia.
    destruct ((1 <? it + 1) && (im =? 0)); [lia |].
    destruct Hs as [-> | [-> | ->]]; [| | lia]; vm_compute; split; discriminate.
  - destruct o as [n v p on s d im it rs sc]. option_norm. lia.
Qed.

(** The step of the first option over its first loop body in the worked
    run: from 16 to 4. *)
Lemma steps_never_grow_witness :
  1 <= steps (mkTuningOption "Alpha" 5 false "" 4 1 0 1 0 0)
    <= steps (new_TuningOption "Alpha" 5 false "").
Proof.
  apply (steps_never_grow demo_pass demo_head
           (tune_option demo_pass 0 demo_head).2 (EvOption 0 StepReduced)
           0%nat (new_TuningOption "Alpha" 5 false "")
           (mkTuningOption "Alpha" 5 false "" 4 1 0 1 0 0)).
  - unfold demo_head. eapply reach_step; [| apply step_begin].
    apply demo_after_reachable_0.
  - apply step_option. vm_compute. reflexivity.
  - vm_compute. reflexivity.
  - vm_compute. reflexivity.
Defined.
Section SearchTurns.

Context {World : Type}.
Variable run_pass : list TuningOption -> World -> Result float * World.
Implicit Types (t : Tuner World) (o : TuningOption) (i : nat).

(** The postponed check when it runs its loop. *)
Lemma check_postponed_idle t :
  search_inv t ->
  improved t = false -> retry_postponed t = false ->
  check_postponed t
  = mkTuner (map (fun o => set_remaining_skips 0 (set_steps 1 o))
               (tuning_options t))
      None (best_err t)
      (existsb (fun o => 0 <? remaining_skips o) (tuning_options t))
      true (world t).
Proof.
  intros [Hbest Hok] Him Hrp. unfold check_postponed. rewrite Him, Hrp. cbn.
  pose proof (reset_postponed_fst (best_list t) false) as H1.
  pose proof (reset_postponed_snd (best_list t) false) as H2.
  destruct (reset_postponed (best_list t) false) as [best any]. cbn in H1, H2.
  rewrite best_list_in_step in H1, H2 by done. subst best any.
  assert (Hmap : map (fun o => set_remaining_skips (Z.min 0 (remaining_skips o))
                                 (set_steps 1 o)) (tuning_options t)
                 = map (fun o => set_remaining_skips 0 (set_steps 1 o))
                     (tuning_options t)).
  { apply map_ext_in. intros o Ho%list_elem_of_In.
    destruct (proj1 (Forall_forall _ _) Hok o Ho) as (_ & Hr & _).
    by rewrite Z.min_l. }
  rewrite Hmap. unfold best_in_step in Hbest.
  destruct (best_options t) as [l|]; [| done].
  destruct Hbest as [_ Him']. congruence.
Qed.

(** The postponed check when it only clears [retry_postponed]. *)
Lemma check_postponed_busy t :
  improved t = true \/ retry_postponed t = true ->
  check_postponed t
  = mkTuner (tuning_options t) (best_options t) (best_err t) (improved t)
      false (world t).
Proof.
  intros Hc. unfold check_postponed.
  by destruct Hc as [-> | ->]; rewrite ?andb_false_r.
Qed.

(** The flags after the loop over the options. *)
Lemma tune_options_flags places t bs t' :
  search_inv t ->
  tune_options run_pass places t = (Ok bs, t') ->
  search_inv t'
  /\ improved t' = improved t || existsb improving bs
  /\ retry_postponed t' = retry_postponed t.
Proof.
  revert t bs. induction places as [|i rest IH]; intros t bs Hinv Hrun.
  - cbn in Hrun. injection Hrun as <- <-. cbn. by rewrite orb_false_r.
  - cbn in Hrun. unfold mbind, Search_bind in Hrun.
    destruct (tune_option run_pass i t) as [[b|e] t1] eqn:H1; [| done].
    destruct (tune_options run_pass rest t1) as [[bs'|e] t2] eqn:H2; [| done].
    cbn in Hrun. injection Hrun as <- <-.
    pose proof (tune_option_inv run_pass t i b t1 Hinv H1) as Hinv1.
    destruct (IH t1 bs' Hinv1 H2) as (Hinv2 & Him2 & Hrp2).
    destruct (tune_option_ok run_pass t i b t1 (proj1 Hinv) H1)
      as (o & _ & _ & _ & Hrp1 & Hspec).
    split; [done |]. rewrite Him2, Hrp2, Hrp1. split; [| done].
    cbn [existsb]. rewrite orb_assoc. f_equal.
    destruct b; cbn in Hspec; cbn.
    + destruct Hspec as (_ & _ & _ & -> & _). by rewrite orb_false_r.
    + destruct Hspec as (_ & _ & _ & ->). by rewrite orb_true_r.
    + destruct Hspec as (_ & e1 & w1 & _ & _ & _ & _ & ->).
      by rewrite orb_true_r.
    + destruct Hspec as (_ & _ & _ & _ & -> & _). by rewrite orb_false_r.
    + destruct Hspec as (_ & _ & _ & _ & -> & _). by rewrite orb_false_r.
Qed.

(** One turn of the [while] loop, as the loop over the options followed
    by the postponed check. *)
Lemma tuning_pass_flags t bs t' :
  search_inv t ->
  tuning_pass run_pass t = (Ok bs, t') ->
  exists t1,
    t' = check_postponed t1
    /\ search_inv t1
    /\ improved t1 = existsb improving bs
    /\ retry_postponed t1 = retry_postponed t.
Proof.
  intros Hinv Hrun. unfold tuning_pass in Hrun.
  destruct (tune_options run_pass _ (begin_pass t)) as [[bs'|e] t1] eqn:H1;
    [| done].
  injection Hrun as <- <-. exists t1. split; [done |].
  destruct (tune_options_flags _ _ _ _ (begin_pass_inv t Hinv) H1)
    as (Hinv1 & Him & Hrp).
  done.
Qed.

End SearchTurns.

(** The postponed check at the end of a turn. After a turn without
    improvement that did not itself follow such a check, every option
    gets step 1 and loses its pending skips, [retry_postponed] is set, and
    the loop goes on exactly when some option had skips pending. In every
    other case the check only clears [retry_postponed]. The error and
    everything else stay as they were. *)
Theorem postponed_check_releases {World : Type}
    (run_pass : list TuningOption -> World -> Result float * World)
    (t : Tuner World) :
  reachable run_pass t ->
  (improved t = false -> retry_postponed t = false ->
   tuning_options (check_postponed t)
   = map (fun o => set_remaining_skips 0 (set_steps 1 o)) (tuning_options t)
   /\ best_list (check_postponed t) = tuning_options (check_postponed t)
   /\ retry_postponed (check_postponed t) = true
   /\ (improved (check_postponed t) = true
       <-> exists o, o ∈ tuning_options t /\ 0 < remaining_skips o))
  /\ (improved t = true \/ retry_postponed t = true ->
      tuning_options (check_postponed t) = tuning_options t
      /\ best_options (check_postponed t) = best_options t
      /\ improved (check_postponed t) = improved t
      /\ retry_postponed (check_postponed t) = false)
  /\ best_err (check_postponed t) = best_err t
  /\ world (check_postponed t) = world t.
Proof.
  intros Hreach.
  pose proof (reachable_inv run_pass t Hreach) as Hinv.
  split; [| split].
  - intros Him Hrp. rewrite (check_postponed_idle t Hinv Him Hrp). cbn.
    repeat split; try done.
    + intros (o & Ho & Hpos)%existsb_exists. exists o.
      split; [by apply list_elem_of_In | by apply Z.ltb_lt].
    + intros (o & Ho & Hpos). apply existsb_exists. exists o.
      split; [by apply list_elem_of_In | by apply Z.ltb_lt].
  - intros Hc. by rewrite (check_postponed_busy t Hc).
  - destruct (improved t) eqn:Him; [| destruct (retry_postponed t) eqn:Hrp].
    + by rewrite (check_postponed_busy t (or_introl Him)).
    + by rewrite (check_postponed_busy t (or_intror Hrp)).
    + by rewrite (check_postponed_idle t Hinv Him Hrp).
Qed.

(** The check after three turns of the worked run. *)
Lemma postponed_check_releases_witness :
  (improved (demo_after 3) = false -> retry_postponed (demo_after 3) = false ->
   tuning_options (check_postponed (demo_after 3))
   = map (fun o => set_remaining_skips 0 (set_steps 1 o))
       (tuning_options (demo_after 3))
   /\ best_list (check_postponed (demo_after 3))
      = tuning_options (check_postponed (demo_after 3))
   /\ retry_postponed (check_postponed (demo_after 3)) = true
   /\ (improved (check_postponed (demo_after 3)) = true
       <-> exists o, o ∈ tuning_options (demo_after 3)
                     /\ 0 < remaining_skips o))
  /\ (improved (demo_after 3) = true \/ retry_postponed (demo_after 3) = true ->
      tuning_options (check_postponed (demo_after 3))
      = tuning_options (demo_after 3)
      /\ best_options (check_postponed (demo_after 3))
         = best_options (demo_after 3)
      /\ improved (check_postponed (demo_after 3)) = improved (demo_after 3)
      /\ retry_postponed (check_postponed (demo_after 3)) = false)
  /\ best_err (check_postponed (demo_after 3)) = best_err (demo_after 3)
  /\ world (check_postponed (demo_after 3)) = world (demo_after 3).
Proof.
  apply (postponed_check_releases demo_pass (demo_after 3)).
  apply demo_after_reachable_3.
Defined.

(** Two turns in a row without an improving trial end the search: the
    [while] loop is left after the first of them, or after the second. *)
Theorem two_idle_turns_end_search {World : Type}
    (run_pass : list TuningOption -> World -> Result float * World)
    (t t1 t2 : Tuner World) (bs1 bs2 : list Branch) (fuel : nat) :
  reachable run_pass t ->
  improved t = true ->
  tuning_pass run_pass t = (Ok bs1, t1) ->
  existsb improving bs1 = false ->
  tuning_pass run_pass t1 = (Ok bs2, t2) ->
  existsb improving bs2 = false ->
  (improved t1 = false \/ improved t2 = false)
  /\ tuning_loop run_pass (S (S fuel)) t
     = Some (Ok tt, if improved t1 then t2 else t1).
Proof.
  intros Hreach Him Hrun1 Hbs1 Hrun2 Hbs2.
  pose proof (reachable_inv run_pass t Hreach) as Hinv.
  pose proof (reachable_inv run_pass t1
                (tuning_pass_reachable run_pass t bs1 t1 Hreach Hrun1)) as Hinv1.
  destruct (tuning_pass_flags run_pass t bs1 t1 Hinv Hrun1)
    as (u1 & -> & Hu1 & Him1 & Hrp1).
  destruct (tuning_pass_flags run_pass _ bs2 t2 Hinv1 Hrun2)
    as (u2 & -> & Hu2 & Him2 & Hrp2).
  rewrite Hbs1 in Him1. rewrite Hbs2 in Him2.
  assert (Hend : improved (check_postponed u1) = false
                 \/ improved (check_postponed u1) = true
                    /\ improved (check_postponed u2) = false).
  { destruct (retry_postponed t) eqn:Hrp.
    - left. rewrite check_postponed_busy by (right; congruence). done.
    - destruct (improved (check_postponed u1)) eqn:E; [right | by left].
      split; [done |].
      rewrite (check_postponed_busy u2); [done |]. right. rewrite Hrp2.
      rewrite check_postponed_idle by (done || congruence). done. }
  split; [tauto |].
  cbn [tuning_loop]. rewrite Him, Hrun1.
  destruct Hend as [E | [E1 E2]].
  - rewrite E. by destruct fuel.
  - rewrite E1, Hrun2. destruct fuel; cbn [tuning_loop]; by rewrite E2.
Qed.

(** The search over one option whose pass never changes its error: the
    first turn already finds no improvement, and the loop is left. *)
Lemma two_idle_turns_end_search_witness :
  (improved (tuning_pass flat_pass
               (init_tuner [new_TuningOption "Alpha" 5 false ""]
                  1000%float 1%nat)).2 = false
   \/ improved (tuning_pass flat_pass
                  (tuning_pass flat_pass
                     (init_tuner [new_TuningOption "Alpha" 5 false ""]
                        1000%float 1%nat)).2).2 = false)
  /\ tuning_loop flat_pass 2
       (init_tuner [new_TuningOption "Alpha" 5 false ""] 1000%float 1%nat)
     = Some (Ok tt,
             if improved (tuning_pass flat_pass
                            (init_tuner [new_TuningOption "Alpha" 5 false ""]
                               1000%float 1%nat)).2
             then (tuning_pass flat_pass
                     (tuning_pass flat_pass
                        (init_tuner [new_TuningOption "Alpha" 5 false ""]
                           1000%float 1%nat)).2).2
             else (tuning_pass flat_pass
                     (init_tuner [new_TuningOption "Alpha" 5 false ""]
                        1000%float 1%nat)).2).
Proof.
  apply (two_idle_turns_end_search flat_pass
           (init_tuner [new_TuningOption "Alpha" 5 false ""] 1000%float 1%nat)
           _ _ [StepReduced] [Postponed] 0).
  - apply reach_init. repeat constructor.
  - reflexivity.
  - vm_compute. reflexivity.
  - reflexivity.
  - vm_compute. reflexivity.
  - reflexivity.
Defined.

(** * The search under a pass that never lowers the error *)

(** No float is below itself. *)
Lemma float_ltb_irrefl (x : float) : (x <? x)%float = false.
Proof.
  rewrite FloatAxioms.ltb_spec. unfold SpecFloat.SFltb.
  destruct (Prim2SF x) as [s | s | | s m e]; cbn; [done | by destruct s | done |].
  destruct s; rewrite Z.compare_refl, Pos.compare_cont_refl; done.
Qed.

(** The option a fresh option becomes in a first turn without
    improvement: one iteration, step 4. *)
Lemma after_branch_fresh o :
  fresh o ->
  after_branch StepReduced o = set_steps 4 (set_iterations 1 o)
  /\ set_remaining_skips 0 (set_steps 1 (after_branch StepReduced o))
     = set_steps 1 (set_iterations 1 o).
Proof.
  intros (Hs & Hd & Him & Hit & Hrs & Hsc).
  destruct o as [n v p on s d im it rs sc]. cbn in *. subst. done.
Qed.

Section FlatSearch.

Context {World : Type}.
Variable run_pass : list TuningOption -> World -> Result float * World.
Variable steady : World -> Prop.
Variable err : float.
Hypothesis run_pass_flat :
  forall opts w, steady w ->
    exists e w', run_pass opts w = (Ok e, w') /\ steady w'
                 /\ (e <? err)%float = false.
Implicit Types (t : Tuner World) (o : TuningOption) (i : nat).

(** The loop body of an option without pending skips. *)
Lemma tune_option_flat t i o :
  reachable run_pass t ->
  tuning_options t !! i = Some o ->
  remaining_skips o = 0 ->
  steady (world t) -> best_err t = err ->
  exists t',
    let b := if 1 <? steps o then StepReduced else Postponed in
    tune_option run_pass i t = (Ok b, t')
    /\ tuning_options t' = <[i := after_branch b o]> (tuning_options t)
    /\ best_err t' = err /\ improved t' = improved t
    /\ retry_postponed t' = retry_postponed t
    /\ steady (world t') /\ reachable run_pass t'.
Proof.
  intros Hreach Hi Hrs Hw Herr.
  pose proof (reachable_inv run_pass t Hreach) as [Hbest Hok].
  pose proof (tune_option_post run_pass t i o Hbest Hi) as Hpost.
  destruct (run_pass_flat (first_trial i o (tuning_options t)) (world t) Hw)
    as (e1 & w1 & He1 & Hw1 & Hn1).
  destruct (run_pass_flat (second_trial i o (tuning_options t)) w1 Hw1)
    as (e2 & w2 & He2 & Hw2 & Hn2).
  destruct (tune_option run_pass i t) as [[b|x] t'] eqn:Hrun;
    unfold option_post in Hpost; cbn in Hpost.
  - destruct Hpost as (Hrp & Hopts & _ & Hspec).
    assert (Hreach' : reachable run_pass t')
      by (eapply reach_step; [exact Hreach | by apply step_option]).
    assert (Hfailed : trials_failed run_pass i o t (world t') ->
                      steady (world t')).
    { intros (e1' & w1' & e2' & Hp1 & _ & Hp2 & _).
      rewrite He1 in Hp1. injection Hp1 as <- <-.
      rewrite He2 in Hp2. by injection Hp2 as <- <-. }
    destruct b; cbn in Hspec.
    + lia.
    + destruct Hspec as (_ & Hp & Hlt & _).
      rewrite He1 in Hp. injection Hp as -> _. congruence.
    + destruct Hspec as (_ & e1' & w1' & Hp1 & _ & Hp & Hlt & _).
      rewrite He1 in Hp1. injection Hp1 as <- <-.
      rewrite He2 in Hp. injection Hp as -> _. congruence.
    + destruct Hspec as (_ & Hsteps & Htr & He & Him & _).
      exists t'. apply Z.ltb_lt in Hsteps. rewrite Hsteps.
      repeat split; try done; [congruence | by apply Hfailed].
    + destruct Hspec as (_ & Hsteps & Htr & He & Him & _).
      exists t'. apply Z.ltb_ge in Hsteps. rewrite Hsteps.
      repeat split; try done; [congruence | by apply Hfailed].
  - destruct Hpost as (_ & _ & [Hp | (e1' & w1' & Hp1 & _ & Hp)] & _).
    + congruence.
    + rewrite He1 in Hp1. injection Hp1 as <- <-. congruence.
Qed.

(** The loop over fresh options: every one of them has its step
    reduced. *)
Lemma tune_options_flat (options : list TuningOption) :
  Forall fresh options ->
  forall (m k : nat) t,
    (k + m <= length options)%nat ->
    reachable run_pass t ->
    tuning_options t
    = map (after_branch StepReduced) (take k options) ++ drop k options ->
    steady (world t) -> best_err t = err ->
    exists t',
      tune_options run_pass (seq k m) t = (Ok (replicate m StepReduced), t')
      /\ tuning_options t'
         = map (after_branch StepReduced) (take (k + m) options)
           ++ drop (k + m) options
      /\ best_err t' = err /\ improved t' = improved t
      /\ retry_postponed t' = retry_postponed t
      /\ steady (world t') /\ reachable run_pass t'.
Proof.
  intros Hfresh m. induction m as [|m IH]; intros k t Hlen Hreach Hopts Hw Herr.
  - exists t. cbn. rewrite Nat.add_0_r. done.
  - assert (Hk : (k < length options)%nat) by lia.
    destruct (lookup_lt_is_Some_2 _ _ Hk) as [o Ho].
    assert (Hi : tuning_options t !! k = Some o).
    { rewrite Hopts, lookup_app_r; rewrite length_map, length_take;
        [| lia].
      replace (k - k `min` length options)%nat with 0%nat by lia.
      rewrite lookup_drop. by rewrite Nat.add_0_r. }
    destruct (proj1 (Forall_lookup _ _) Hfresh k o Ho)
      as (Hs & Hd & Him & Hit & Hrs & Hsc).
    destruct (tune_option_flat t k o Hreach Hi Hrs Hw Herr)
      as (t1 & Hrun1 & Hopts1 & Herr1 & Him1 & Hrp1 & Hw1 & Hreach1).
    rewrite Hs in Hrun1, Hopts1. cbn in Hrun1, Hopts1.
    assert (Hopts1' : tuning_options t1
              = map (after_branch StepReduced) (take (S k) options)
                ++ drop (S k) options).
    { rewrite Hopts1, Hopts.
      rewrite (take_S_r _ _ _ Ho), map_app, <- app_assoc. cbn [map app].
      rewrite (drop_S _ _ _ Ho).
      rewrite insert_app_r_alt; rewrite length_map, length_take; [| lia].
      replace (k - k `min` length options)%nat with 0%nat by lia.
      done. }
    destruct (IH (S k) t1 ltac:(lia) Hreach1 Hopts1' Hw1 Herr1)
      as (t2 & Hrun2 & Hopts2 & Herr2 & Him2 & Hrp2 & Hw2 & Hreach2).
    exists t2. cbn [seq tune_options replicate].
    erewrite Search_bind_ok by exact Hrun1.
    erewrite Search_bind_ok by exact Hrun2.
    replace (k + S m)%nat with (S k + m)%nat by lia.
    repeat split; try done; congruence.
Qed.

(** The first turn of the search, and the loop as a whole. *)
Lemma tuning_loop_flat (options : list TuningOption) (w : World) fuel :
  Forall fresh options -> steady w ->
  exists t',
    tuning_loop run_pass (S fuel) (init_tuner options err w)
    = Some (Ok tt, t')
    /\ tuning_pass run_pass (init_tuner options err w)
       = (Ok (replicate (length options) StepReduced), t')
    /\ best_list t' = map (fun o => set_steps 1 (set_iterations 1 o)) options
    /\ best_err t' = err /\ steady (world t').
Proof.
  intros Hfresh Hw.
  pose proof (reach_init run_pass options err w Hfresh) as Hreach0.
  pose proof (reach_step run_pass _ EvBegin _ Hreach0 (step_begin _ _))
    as Hreach.
  destruct (tune_options_flat options Hfresh (length options) 0
              (begin_pass (init_tuner options err w)) ltac:(lia) Hreach
              ltac:(by rewrite take_0, drop_0) Hw eq_refl)
    as (t1 & Hrun & Hopts & Herr & Him & Hrp & Hw1 & Hreach1).
  cbn in Him, Hrp.
  change (0 + length options)%nat with (length options) in Hopts.
  rewrite firstn_all, drop_all, app_nil_r in Hopts.
  pose proof (reachable_inv run_pass t1 Hreach1) as Hinv1.
  assert (Hcheck := check_postponed_idle t1 Hinv1 Him Hrp).
  assert (Hnone : existsb (fun o => 0 <? remaining_skips o)
                    (tuning_options t1) = false).
  { rewrite Hopts. apply not_true_is_false.
    intros (o' & Hin & Hpos)%existsb_exists.
    apply in_map_iff in Hin as (o & <- & Hin%list_elem_of_In).
    destruct (proj1 (Forall_forall _ _) Hfresh o Hin) as (_&_&_&_& Hrs &_).
    destruct o. cbn in *. subst. done. }
  assert (Hfinal : map (fun o => set_remaining_skips 0 (set_steps 1 o))
                     (tuning_options t1)
                   = map (fun o => set_steps 1 (set_iterations 1 o)) options).
  { rewrite Hopts, map_map. apply map_ext_in. intros o Hin%list_elem_of_In.
    apply after_branch_fresh. by apply (proj1 (Forall_forall _ _) Hfresh). }
  rewrite Hnone, Hfinal in Hcheck.
  assert (Hpass : tuning_pass run_pass (init_tuner options err w)
                  = (Ok (replicate (length options) StepReduced),
                     check_postponed t1)).
  { unfold tuning_pass.
    replace (length (tuning_options (begin_pass (init_tuner options err w))))
      with (length options) by done.
    by rewrite Hrun. }
  exists (check_postponed t1).
  split; [| split; [exact Hpass |]].
  - cbn [tuning_loop]. change (improved (init_tuner options err w)) with true.
    cbn iota. rewrite Hpass, Hcheck. by destruct fuel.
  - rewrite Hcheck. cbn. done.
Qed.

End FlatSearch.

(** When no trial ever lowers the error, the search is over after a
    single turn: each option has had one loop body, which took back both
    trial values and reduced the step; the postponed check finds nothing
    postponed; and the options that the search returns are the initial
    ones with one iteration counted and step 1, every value as it was
    configured. *)
Theorem flat_search_ends {World : Type}
    (run_pass : list TuningOption -> World -> Result float * World)
    (options : list TuningOption) (err : float) (w : World) (fuel : nat) :
  Forall fresh options ->
  (forall opts w, exists e w',
      run_pass opts w = (Ok e, w') /\ (e <? err)%float = false) ->
  exists t',
    tuning_loop run_pass (S fuel) (init_tuner options err w) = Some (Ok tt, t')
    /\ tuning_pass run_pass (init_tuner options err w)
       = (Ok (replicate (length options) StepReduced), t')
    /\ best_list t' = map (fun o => set_steps 1 (set_iterations 1 o)) options
    /\ map value (best_list t') = map value options
    /\ best_err t' = err.
Proof.
  intros Hfresh Hflat.
  destruct (tuning_loop_flat run_pass (fun _ => True) err
              ltac:(intros opts w0 _;
                    destruct (Hflat opts w0) as (e & w' & H1 & H2); eauto)
              options w fuel Hfresh I)
    as (t' & Hloop & Hpass & Hbest & Herr & _).
  exists t'. repeat split; try done.
  rewrite Hbest, map_map. apply map_ext. by intros [].
Qed.

(** The search over one option whose pass never changes its error. *)
Lemma flat_search_ends_witness :
  exists t',
    tuning_loop flat_pass 1
      (init_tuner [new_TuningOption "Alpha" 5 false ""] 1000%float 1%nat)
    = Some (Ok tt, t')
    /\ tuning_pass flat_pass
         (init_tuner [new_TuningOption "Alpha" 5 false ""] 1000%float 1%nat)
       = (Ok (replicate (length [new_TuningOption "Alpha" 5 false ""])
                StepReduced), t')
    /\ best_list t'
       = map (fun o => set_steps 1 (set_iterations 1 o))
           [new_TuningOption "Alpha" 5 false ""]
    /\ map value (best_list t') = map value [new_TuningOption "Alpha" 5 false ""]
    /\ best_err t' = 1000%float.
Proof.
  apply (flat_search_ends flat_pass [new_TuningOption "Alpha" 5 false ""]
           1000%float 1%nat 0).
  - repeat constructor.
  - intros opts w. exists 1000%float, (S w). split; reflexivity.
Defined.
(** The result of a pass does not depend on the options it is run
    for. *)
Lemma run_pass_any_options float_pow (w : Z) options options' k st :
  run_pass float_pow w options k st = run_pass float_pow w options' k st.
Proof.
  destruct (make_batches (seq 0 (length (positions st))) w) as [batches | e]
    eqn:Hb.
  - by rewrite !(run_pass_closed _ _ _ _ _ _ Hb).
  - unfold run_pass. by rewrite Hb.
Qed.

(** [main] never tunes. Because no pass writes a score, every pass
    returns the error of the first one, and no trial is below it: for any
    configuration and corpus, and for any engine, [main] is over after the
    first pass and a single turn of the search, and the options it ends
    with, when it does not end in an exception, are the configured ones
    with one iteration counted and step 1; no value has changed. The
    corpus is as it was read, and the engines are as starting and
    stopping them leaves them: no command but [quit] has been sent. *)
Theorem main_never_tunes
    (float_pow : float -> float -> Result float) (spawn : nat -> Engine)
    (fuel : nat) (concurrent_workers : Z) (options : list TuningOption)
    (test_positions : list TestPosition) :
  Forall fresh options ->
  exists r st,
    main float_pow spawn (S fuel) concurrent_workers options test_positions
    = Some (r, st)
    /\ positions st = test_positions
    /\ engines st = (stop_engines (start_engines spawn concurrent_workers)).2
    /\ (forall options',
          r = Ok options' ->
          options' = map (fun o => set_steps 1 (set_iterations 1 o)) options
          /\ map value options' = map value options).
Proof.
  intros Hfresh. unfold main. cbv zeta.
  set (st := mkPassState (start_engines spawn concurrent_workers) test_positions).
  set (pass := fun opts => run_pass float_pow concurrent_workers opts K).
  assert (Hpass : forall opts, pass opts st = ((pass options st).1, st)).
  { intros opts. unfold pass.
    rewrite (run_pass_any_options _ _ opts options).
    rewrite <- (run_pass_state float_pow concurrent_workers options K st) at 3.
    apply surjective_pairing. }
  change (run_pass float_pow concurrent_workers options K st)
    with (pass options st).
  rewrite (Hpass options).
  destruct (pass options st).1 as [err | e] eqn:Hfirst.
  - destruct (tuning_loop_flat pass (fun w => w = st) err
                ltac:(intros opts w0 ->; exists err, st;
                      split; [by rewrite Hpass, ?Hfirst |];
                      split; [done | apply float_ltb_irrefl])
                options st fuel Hfresh eq_refl)
      as (t' & Hloop & _ & Hbest & _ & Hw).
    rewrite Hloop, Hw.
    destruct (stop_engines (engines st)) as [[u | e] es] eqn:Hstop;
      change (engines st) with (start_engines spawn concurrent_workers)
        in Hstop; rewrite Hstop.
    + eexists _, _. split; [done |]. split; [done |]. split; [done |].
      intros options' [= <-]. split; [done |].
      rewrite Hbest, map_map. apply map_ext. by intros [].
    + eexists _, _. split; [done |]. split; [done |]. split; [done |].
      by intros options' [=].
  - destruct (stop_engines (engines st)) as [[u | e'] es] eqn:Hstop;
      change (engines st) with (start_engines spawn concurrent_workers)
        in Hstop; rewrite Hstop.
    + eexists _, _. split; [done |]. split; [done |]. split; [done |].
      by intros options' [=].
    + eexists _, _. split; [done |]. split; [done |]. split; [done |].
      by intros options' [=].
Qed.

(** [main] on the worked run's options and the corpus of two positions,
    with one worker. *)
Lemma main_never_tunes_witness :
  exists r st,
    main (fun _ _ => Ok 1%float) (fun _ => demo_engine) 1 1 demo_options
      demo_corpus
    = Some (r, st)
    /\ positions st = demo_corpus
    /\ engines st = (stop_engines (start_engines (fun _ => demo_engine) 1)).2
    /\ (forall options',
          r = Ok options' ->
          options'
          = map (fun o => set_steps 1 (set_iterations 1 o)) demo_options
          /\ map value options' = map value demo_options).
Proof.
  apply (main_never_tunes (fun _ _ => Ok 1%float) (fun _ => demo_engine) 0 1
           demo_options demo_corpus).
  repeat constructor.
Defined.

(** * Chunks, batches and the sessions of a pass *)

(** A chunk size or a batch size of 1 makes singletons. *)
Lemma make_chunks_one {A} (l : list A) :
  make_chunks l 1 = Ok (map (fun x => [x]) l).
Proof.
  rewrite make_chunks_pos by lia. f_equal.
  unfold chunk_count.
  replace (Z.to_nat (if 0 <? Z.of_nat (length l)
                     then (Z.of_nat (length l) - 1) / 1 + 1 else 0))
    with (length l)
    by (destruct (Z.ltb_spec 0 (Z.of_nat (length l)));
        rewrite ?Z.div_1_r; lia).
  apply list_eq. intros k. rewrite !list_lookup_fmap.
  destruct (l !! k) as [x|] eqn:Hk.
  - rewrite lookup_seq_lt by (by eapply lookup_lt_Some). cbn.
    change (Z.to_nat 1) with 1%nat. rewrite Nat.mul_1_r.
    by rewrite (drop_S _ _ _ Hk).
  - apply lookup_ge_None in Hk. by rewrite lookup_seq_ge.
Qed.

(** The number of batches, against the number of sessions that [main]
    starts. *)
Lemma batch_count_bound (n w : Z) :
  1 <= w -> 0 <= n ->
  (Z.of_nat (chunk_count n (Z.max 1 (n / w))) <= w + 1
   <-> ~ (w <= n /\ n / w < n mod w)).
Proof.
  intros Hw Hn. unfold chunk_count.
  destruct (Z.ltb_spec 0 n) as [Hpos | Hzero]; [| lia].
  pose proof (Z.div_mod n w ltac:(lia)) as Hdm.
  pose proof (Z.mod_pos_bound n w ltac:(lia)) as Hmod.
  destruct (Z.le_gt_cases w n) as [Hle | Hgt].
  - assert (Hq : 1 <= n / w) by (apply Z.div_le_lower_bound; lia).
    rewrite Z.max_r by lia.
    pose proof (Z.div_pos (n - 1) (n / w) ltac:(lia) ltac:(lia)).
    rewrite Z2Nat.id by lia.
    split.
    + intros Hcount [_ Hrem].
      assert (w + 1 <= (n - 1) / (n / w)); [| lia].
      apply Z.div_le_lower_bound; [lia | nia].
    + intros Hrem.
      assert ((n - 1) / (n / w) < w + 1); [| lia].
      apply Z.div_lt_upper_bound; [lia | nia].
  - rewrite (Z.div_small n w) by lia. rewrite Z.max_l, Z.div_1_r by lia.
    rewrite Z2Nat.id by lia. split; [lia | lia].
Qed.

(** [make_batches] is defined for every number of batches but 0, and
    whatever that number is, also one above the size of the corpus or a
    negative one, the batches are not empty, none is longer than
    [max(1, n // batch_count)], and put one after the other they are the
    corpus. With more batches asked for than there are positions, or a
    negative number, every batch is a single position. *)
Theorem make_batches_total {A : Type} (corpus : list A) (batch_count : Z) :
  batch_count <> 0 ->
  exists batches,
    make_batches corpus batch_count = Ok batches
    /\ concat batches = corpus
    /\ Forall (fun b => 1 <= Z.of_nat (length b)
                        <= Z.max 1 (Z.of_nat (length corpus) / batch_count))
         batches
    /\ (batch_count < 0 \/ Z.of_nat (length corpus) < batch_count ->
        batches = map (fun x => [x]) corpus).
Proof.
  intros Hw. unfold make_batches.
  destruct (Z.eqb_spec batch_count 0) as [-> | _]; [done |].
  set (cs := Z.max 1 (Z.of_nat (length corpus) / batch_count)).
  assert (Hcs : 0 < cs) by lia.
  destruct (make_chunks corpus cs) as [batches | e] eqn:Hchunks;
    [| by rewrite make_chunks_pos in Hchunks].
  exists batches. split; [done |].
  split; [by eapply make_chunks_concat |]. split.
  - apply Forall_lookup. intros k b Hk.
    destruct (make_chunks_lookup corpus cs batches k b Hcs Hchunks Hk). lia.
  - intros Hsmall.
    assert (cs = 1); [| subst cs; rewrite H, make_chunks_one in Hchunks;
                        by injection Hchunks].
    unfold cs. destruct Hsmall as [Hneg | Hbig].
    + pose proof (Z.div_le_upper_bound (- Z.of_nat (length corpus))
                    (- batch_count) 0 ltac:(lia) ltac:(lia)).
      rewrite <- (Z.div_opp_opp _ batch_count) by lia. lia.
    + rewrite (Z.div_small (Z.of_nat (length corpus)) batch_count) by lia. lia.
Qed.

(** Three positions in five batches: three batches of one. *)
Lemma make_batches_total_witness :
  exists batches,
    make_batches [1; 2; 3] 5 = Ok batches
    /\ concat batches = [1; 2; 3]
    /\ Forall (fun b => 1 <= Z.of_nat (length b)
                        <= Z.max 1 (Z.of_nat (length [1; 2; 3]) / 5))
         batches
    /\ (5 < 0 \/ Z.of_nat (length [1; 2; 3]) < 5 ->
        batches = map (fun x => [x]) [1; 2; 3]).
Proof.
  apply (make_batches_total [1; 2; 3] 5). lia.
Defined.

(** [make_chunks] with a positive chunk size: the chunks put one after
    the other are the list; there are [ceil(n / chunk_size)] of them;
    each has [chunk_size] elements except that the last one has what
    remains, at least one element. *)
Theorem make_chunks_partition {A : Type} (positions : list A) (chunk_size : Z) :
  0 < chunk_size ->
  exists chunks,
    make_chunks positions chunk_size = Ok chunks
    /\ concat chunks = positions
    /\ Z.of_nat (length chunks) * chunk_size
       < Z.of_nat (length positions) + chunk_size
    /\ Z.of_nat (length positions) <= Z.of_nat (length chunks) * chunk_size
    /\ (forall k c,
          chunks !! k = Some c ->
          1 <= Z.of_nat (length c)
          /\ Z.of_nat (length c)
             = Z.min chunk_size
                 (Z.of_nat (length positions) - Z.of_nat k * chunk_size)).
Proof.
  intros Hcs.
  pose proof (make_chunks_pos positions chunk_size Hcs) as Hchunks.
  eexists. split; [exact Hchunks |].
  split; [by eapply make_chunks_concat |].
  rewrite length_map, length_seq.
  split; [| split].
  - unfold chunk_count.
    destruct (Z.ltb_spec 0 (Z.of_nat (length positions))); [| lia].
    pose proof (Z.div_pos (Z.of_nat (length positions) - 1) chunk_size
                  ltac:(lia) Hcs).
    pose proof (Z.mul_div_le (Z.of_nat (length positions) - 1) chunk_size Hcs).
    rewrite Z2Nat.id by lia. lia.
  - apply chunk_count_covers; lia.
  - intros k c Hk.
    destruct (make_chunks_lookup positions chunk_size _ k c Hcs Hchunks Hk).
    lia.
Qed.

(** Seven elements in chunks of three. *)
Lemma make_chunks_partition_witness :
  exists chunks,
    make_chunks (seq 0 7) 3 = Ok chunks
    /\ concat chunks = seq 0 7
    /\ Z.of_nat (length chunks) * 3 < Z.of_nat (length (seq 0 7)) + 3
    /\ Z.of_nat (length (seq 0 7)) <= Z.of_nat (length chunks) * 3
    /\ (forall k c,
          chunks !! k = Some c ->
          1 <= Z.of_nat (length c)
          /\ Z.of_nat (length c)
             = Z.min 3 (Z.of_nat (length (seq 0 7)) - Z.of_nat k * 3)).
Proof.
  apply (make_chunks_partition (seq 0 7) 3). lia.
Defined.

(** The sizes that are not positive. A chunk size of 0 raises
    [ValueError] (the step of [range]); a negative chunk size yields no
    chunk at all, whatever the list holds; and [make_batches] raises
    [ZeroDivisionError] for 0 batches and never passes [make_chunks] a
    size below 1. *)
Theorem make_chunks_degenerate {A : Type} (positions : list A) :
  make_chunks positions 0 = Raise ValueError
  /\ (forall chunk_size, chunk_size < 0 -> make_chunks positions chunk_size = Ok [])
  /\ make_batches positions 0 = Raise ZeroDivisionError
  /\ (forall batch_count,
        batch_count <> 0 ->
        make_batches positions batch_count
        = make_chunks positions
            (Z.max 1 (Z.of_nat (length positions) / batch_count))).
Proof.
  split; [done |]. split; [| split; [done |]].
  - intros cs Hcs. unfold make_chunks, Py.range, Py.range_len.
    destruct (Z.eqb_spec cs 0) as [-> | _]; [lia |].
    destruct (Z.ltb_spec 0 cs) as [Hpos | _]; [lia |].
    destruct (Z.ltb_spec (Z.of_nat (length positions)) 0) as [Hneg | _];
      [lia |].
    done.
  - intros w Hw. unfold make_batches.
    by destruct (Z.eqb_spec w 0).
Qed.

(** The result of a pass, for a positive number of workers and the
    [concurrent_workers + 1] sessions of [main]. The pass raises
    [IndexError] exactly when the corpus has at least as many positions
    as there are workers and [n mod w] exceeds [n // w]; in every other
    case it returns the error of the corpus as it stands. In both cases
    the sessions and the positions are left as they were. *)
Theorem run_pass_result
    (float_pow : float -> float -> Result float) (concurrent_workers : Z)
    (options : list TuningOption) (k : float) (st : PassState) :
  1 <= concurrent_workers ->
  Z.of_nat (length (engines st)) = concurrent_workers + 1 ->
  run_pass float_pow concurrent_workers options k st
  = (if (concurrent_workers <=? Z.of_nat (length (positions st)))
        && (Z.of_nat (length (positions st)) / concurrent_workers
            <? Z.of_nat (length (positions st)) mod concurrent_workers)
     then Raise IndexError
     else calc_avg_error float_pow k (positions st), st).
Proof.
  intros Hw Hengines.
  set (n := Z.of_nat (length (positions st))).
  pose proof (make_batches_pos (seq 0 (length (positions st)))
                concurrent_workers ltac:(lia)) as Hb.
  rewrite make_chunks_pos, length_seq in Hb by (rewrite length_seq; lia).
  fold n in Hb.
  rewrite (run_pass_closed _ _ _ _ _ _ Hb), length_map, length_seq, Hengines.
  pose proof (batch_count_bound n concurrent_workers Hw ltac:(lia)) as Hbound.
  destruct (Z.leb_spec (Z.of_nat (chunk_count n (Z.max 1 (n / concurrent_workers))))
              (concurrent_workers + 1)) as [Hle | Hgt];
    destruct (Z.leb_spec concurrent_workers n);
    destruct (Z.ltb_spec (n / concurrent_workers) (n mod concurrent_workers));
    cbn; try done; tauto || lia.
Qed.

(** The pass of the worked run: one worker, two sessions, two
    positions. *)
Lemma run_pass_result_witness :
  run_pass (fun _ _ => Ok 1%float) 1 demo_options K demo_pass_state
  = (if (1 <=? Z.of_nat (length (positions demo_pass_state)))
        && (Z.of_nat (length (positions demo_pass_state)) / 1
            <? Z.of_nat (length (positions demo_pass_state)) mod 1)
     then Raise IndexError
     else calc_avg_error (fun _ _ => Ok 1%float) K (positions demo_pass_state),
     demo_pass_state).
Proof.
  apply (run_pass_result (fun _ _ => Ok 1%float) 1 demo_options K
           demo_pass_state).
  - lia.
  - reflexivity.
Defined.

(** * Engine sessions *)

Lemma string_app_assoc (a b c : string) :
  ((a ++ b) ++ c = a ++ (b ++ c))%string.
Proof. induction a as [| x a IH]; cbn; [done | by rewrite IH]. Qed.

(** [wait_for_command] on a stream: the lines before the first match are
    read and dropped. *)
Lemma scan_lines_match cmd pre line post :
  Forall (fun l => PyStr.contains cmd (PyStr.rstrip l) = false) pre ->
  PyStr.contains cmd (PyStr.rstrip line) = true ->
  scan_lines cmd (pre ++ line :: post) = (Some (PyStr.rstrip line), post).
Proof.
  intros Hpre Hline. induction Hpre as [| l pre Hl _ IH]; cbn.
  - by rewrite Hline.
  - by rewrite Hl.
Qed.

Lemma scan_lines_none cmd lines :
  Forall (fun l => PyStr.contains cmd (PyStr.rstrip l) = false) lines ->
  scan_lines cmd lines = (None, []).
Proof.
  intros Hpre. induction Hpre as [| l pre Hl _ IH]; cbn; [done |].
  by rewrite Hl.
Qed.

(** What [scan_lines] returns is a suffix of the stream. *)
Lemma scan_lines_suffix cmd lines r rest :
  scan_lines cmd lines = (r, rest) -> rest `suffix_of` lines.
Proof.
  revert r rest. induction lines as [| l lines IH]; intros r rest; cbn.
  - intros [= _ <-]. done.
  - destruct (PyStr.contains cmd (PyStr.rstrip l)).
    + intros [= _ <-]. by apply suffix_cons_r.
    + intros H. apply suffix_cons_r. by eapply IH.
Qed.

Section RunSafe.

Implicit Types (s : Engine * list TestPosition).

Lemma same_games_refl ps : same_games ps ps.
Proof. done. Qed.















(** The conversions of a reply raise [ValueError] only. *)
Lemma mapM_int_raises (l : list string) e :
  mapM (M := Result) PyStr.int l = Raise e -> e = ValueError.
Proof.
  induction l as [| x l IH]; cbn; [done |].
  unfold mbind, Result_bind. unfold PyStr.int at 1.
  destruct (PyStr.digits 0 false _) as [n|]; [| by intros [= <-]].
  destruct (mapM PyStr.int l) as [k | e']; [done |].
  intros [= <-]. by apply IH.
Qed.

Lemma parse_scores_raises r e : parse_scores r = Raise e -> caught e.
Proof.
  destruct r as [line|]; cbn.
  - intros ->%mapM_int_raises. by split.
  - intros [= <-]. by split.
Qed.



End RunSafe.


Section OneChunk.

Implicit Types (e : Engine) (ps : list TestPosition) (chunk : list ref).

Lemma string_app_nil_r (a : string) : (a ++ "")%string = a.
Proof. induction a as [| x a IH]; cbn; [done | by rewrite IH]. Qed.

(** The request line, as the loop builds it. *)
Lemma eval_request_spec chunk (is_first : bool) (fens : string) e ps :
  eval_request chunk is_first fens (e, ps)
  = (Ok (fens
         ++ match chunk with
            | [] => ""
            | _ :: _ => if is_first then "" else ";"
            end
         ++ String.concat ";" (map (fen_at ps) chunk))%string, (e, ps)).
Proof.
  revert is_first fens.
  induction chunk as [| pos chunk IH]; intros is_first fens.
  - cbn. by rewrite string_app_nil_r.
  - cbn [eval_request]. rewrite Run_bind_eq. unfold read_fen at 1.
    cbn [fst snd]. rewrite IH. f_equal. f_equal.
    fold (fen_at ps pos). cbn [map].
    destruct chunk as [| pos' chunk]; cbn [String.concat map].
    + rewrite string_app_nil_r.
      destruct is_first; cbn; by rewrite ?string_app_assoc.
    + destruct is_first; cbn [append]; by rewrite !string_app_assoc.
Qed.

(** The writing loop of a chunk. *)
Lemma for_each_write chunk (scores : list Z) (m k : nat) e ps :
  length scores = length chunk ->
  (k + m <= length chunk)%nat ->
  for_each (seq k m) (fun i =>
    match chunk !! i, scores !! i with
    | Some pos, Some v => write_score pos v
    | _, _ => Run_raise IndexError
    end) (e, ps)
  = (Ok tt, (e, write_scores ps (take m (drop k chunk)) (take m (drop k scores)))).
Proof.
  intros Hlen. revert k ps. induction m as [| m IH]; intros k ps Hk.
  - done.
  - destruct (lookup_lt_is_Some_2 chunk k ltac:(lia)) as [pos Hpos].
    destruct (lookup_lt_is_Some_2 scores k ltac:(lia)) as [v Hv].
    cbn [seq for_each]. rewrite Run_bind_eq, Hpos, Hv.
    unfold write_score at 1. cbn [fst snd].
    rewrite IH by lia.
    rewrite (drop_S _ _ _ Hpos), (drop_S _ _ _ Hv). done.
Qed.

(** The handling of one chunk, whatever the engine replies. *)
Lemma score_chunk_exec chunk e ps r out :
  scan_lines "scores" (stdout e) = (r, out) ->
  exists x,
    score_chunk chunk (e, ps)
    = (x, (mkEngine (stdin_log e ++ [(eval_line ps chunk ++ PyStr.newline)%string])
             out (exits_on_quit e) (running e),
           after_reply ps chunk r))
    /\ (forall err, x = Raise err -> caught err).
Proof.
  intros Hscan. unfold score_chunk, after_reply.
  rewrite Run_bind_eq, eval_request_spec.
  replace ("eval " ++ match chunk with [] => "" | _ :: _ => "" end
           ++ String.concat ";" (map (fen_at ps) chunk))%string
    with (eval_line ps chunk) by (by destruct chunk).
  rewrite Run_bind_eq. unfold send_command at 1. cbn [fst snd].
  rewrite Run_bind_eq. unfold wait_for_command at 1, Engine_wait_for_command.
  cbn [fst snd stdout Engine_send_command]. rewrite Hscan.
  cbn [stdin_log exits_on_quit running Engine_send_command].
  rewrite Run_bind_eq. unfold Run_lift at 1.
  destruct (parse_scores r) as [scores | err] eqn:Hparse.
  - rewrite Run_bind_eq.
    destruct (decide (length scores = length chunk)) as [Hlen | Hlen].
    + cbn [mret Run_ret]. exists (Ok tt). split; [| done].
      rewrite (for_each_write chunk scores (length scores) 0) by lia.
      rewrite !drop_0, firstn_all, Hlen, firstn_all. done.
    + exists (Raise AssertionError). split; [done |]. by intros err [= <-].
  - exists (Raise err). split; [done |]. intros err' [= <-].
    by eapply parse_scores_raises.
Qed.

(** A batch of at most 100 positions is one chunk. *)
Lemma make_chunks_single chunk :
  (1 <= length chunk <= 100)%nat -> make_chunks chunk 100 = Ok [chunk].
Proof.
  intros Hlen. rewrite make_chunks_pos by lia.
  replace (chunk_count (Z.of_nat (length chunk)) 100) with 1%nat.
  - cbn. by rewrite drop_0, take_ge by lia.
  - unfold chunk_count.
    destruct (Z.ltb_spec 0 (Z.of_nat (length chunk))); [| lia].
    rewrite Z.div_small by lia. done.
Qed.

(** [run_engine] on a batch of one chunk, whatever the engine replies. *)
Lemma run_engine_single options chunk e ps a1 out1 a2 out2 r out3 :
  (1 <= length chunk <= 100)%nat ->
  scan_lines "uciok" (stdout e) = (a1, out1) ->
  scan_lines "readyok" out1 = (a2, out2) ->
  scan_lines "scores" out2 = (r, out3) ->
  run_engine options chunk (e, ps)
  = (Ok [],
     (mkEngine (stdin_log e ++ setup_commands options
                ++ [(eval_line ps chunk ++ PyStr.newline)%string])
        out3 (exits_on_quit e) (running e),
      after_reply ps chunk r)).
Proof.
  intros Hlen H1 H2 H3. unfold run_engine, run_engine_body.
  rewrite Run_bind_eq. unfold send_command at 1. cbn [fst snd].
  rewrite Run_bind_eq. unfold wait_for_command at 1, Engine_wait_for_command.
  cbn [fst snd stdout Engine_send_command]. rewrite H1.
  rewrite Run_bind_eq, for_each_send.
  cbn [stdin_log stdout exits_on_quit running Engine_send_command].
  rewrite Run_bind_eq. unfold send_command at 1. cbn [fst snd].
  rewrite Run_bind_eq. unfold wait_for_command at 1, Engine_wait_for_command.
  cbn [fst snd stdout Engine_send_command]. rewrite H2.
  cbn [stdin_log stdout exits_on_quit running Engine_send_command].
  rewrite Run_bind_eq, make_chunks_single by done.
  unfold Run_lift at 1. cbn [for_each]. rewrite Run_bind_eq.
  match goal with |- context [score_chunk chunk (?e1, ps)] =>
    destruct (score_chunk_exec chunk e1 ps r out3 H3) as (x & -> & Hx)
  end.
  cbn [stdin_log stdout exits_on_quit running].
  assert (Hlog : ((stdin_log e ++ ["uci" ++ PyStr.newline]%string)
                  ++ map (fun x0 : TuningOption =>
                       (("setoption name " ++ name x0 ++ " value "
                         ++ PyStr.of_int (value x0)) ++ PyStr.newline)%string)
                     options)
                 ++ [("isready" ++ PyStr.newline)%string]
                 = stdin_log e ++ setup_commands options).
  { unfold setup_commands. rewrite <- !app_assoc. cbn [app]. do 3 f_equal.
    apply map_ext. intros o. by rewrite !string_app_assoc. }
  rewrite Hlog, <- app_assoc.
  destruct x as [u | err]; [done |].
  destruct (Hx err eq_refl) as [Ht Hs]. by destruct err.
Qed.



End OneChunk.


(** A reply that cannot be used is dropped without a trace. When the
    stream ends before a line with [scores], when an entry of the reply is
    not an integer, or when the reply has another number of scores than
    the chunk has positions (assertions being enabled), [run_engine]
    still returns normally, and no score of the corpus has changed. *)
Theorem run_engine_drops_bad_reply (tuning_options : list TuningOption)
    (batch : list ref) (engine : Engine) (corpus : list TestPosition)
    (a1 a2 r : option string) (out1 out2 out3 : list string) :
  (1 <= length batch <= 100)%nat ->
  scan_lines "uciok" (stdout engine) = (a1, out1) ->
  scan_lines "readyok" out1 = (a2, out2) ->
  scan_lines "scores" out2 = (r, out3) ->
  (forall scores, parse_scores r = Ok scores -> length scores <> length batch) ->
  exists engine',
    run_engine tuning_options batch (engine, corpus)
    = (Ok [], (engine', corpus))
    /\ stdout engine' = out3.
Proof.
  intros Hlen H1 H2 H3 Hbad.
  rewrite (run_engine_single tuning_options batch engine corpus
             a1 out1 a2 out2 r out3 Hlen H1 H2 H3).
  unfold after_reply.
  destruct (parse_scores r) as [scores | err] eqn:Hparse.
  - destruct (decide (length scores = length batch)) as [Heq | _].
    + by destruct (Hbad scores eq_refl).
    + eexists. split; done.
  - eexists. split; done.
Qed.

(** One score for two positions. *)
Lemma run_engine_drops_bad_reply_witness :
  exists engine',
    run_engine demo_options [0; 1]%nat
      (mkEngine [] ["uciok"; "readyok"; "scores 42"]%string true true,
       demo_corpus)
    = (Ok [], (engine', demo_corpus))
    /\ stdout engine' = [].
Proof.
  apply (run_engine_drops_bad_reply demo_options [0; 1]%nat
           (mkEngine [] ["uciok"; "readyok"; "scores 42"]%string true true)
           demo_corpus (Some "uciok"%string) (Some "readyok"%string)
           (Some "scores 42"%string)
           ["readyok"; "scores 42"]%string ["scores 42"]%string []).
  - simpl. lia.
  - vm_compute. reflexivity.
  - vm_compute. reflexivity.
  - vm_compute. reflexivity.
  - intros scores. vm_compute. intros [= <-]. discriminate.
Defined.



(** [wait_for_command] returns the first line of the stream that
    contains the command, stripped on the right, and has by then read and
    dropped every line before it; when no line contains the command it
    reads the stream to its end and returns [None]. *)
Theorem wait_for_command_scans (cmd : string) (engine : Engine) :
  (forall pre line post,
      stdout engine = pre ++ line :: post ->
      Forall (fun l => PyStr.contains cmd (PyStr.rstrip l) = false) pre ->
      PyStr.contains cmd (PyStr.rstrip line) = true ->
      Engine_wait_for_command cmd engine
      = (Some (PyStr.rstrip line),
         mkEngine (stdin_log engine) post (exits_on_quit engine)
           (running engine)))
  /\ (Forall (fun l => PyStr.contains cmd (PyStr.rstrip l) = false)
        (stdout engine) ->
      Engine_wait_for_command cmd engine
      = (None,
         mkEngine (stdin_log engine) [] (exits_on_quit engine)
           (running engine))).
Proof.
  split.
  - intros pre line post Hout Hpre Hline. unfold Engine_wait_for_command.
    by rewrite Hout, (scan_lines_match cmd pre line post Hpre Hline).
  - intros Hnone. unfold Engine_wait_for_command.
    by rewrite (scan_lines_none cmd _ Hnone).
Qed.

(** The clean-up of [main] stops the engines in order and is left by
    the first engine that does not exit within the time allowed after
    [quit]: [stop] raises [TimeoutExpired] before it reaches [kill], so
    that engine keeps running, and the engines after it are not told to
    quit at all. When every engine exits in time, all of them are
    stopped. *)
Theorem stop_engines_aborts (pre post : list Engine) (engine : Engine) :
  Forall (fun e => exits_on_quit e = true) pre ->
  exits_on_quit engine = false ->
  stop_engines (pre ++ engine :: post)
  = (Raise TimeoutExpired,
     map (fun e => (Engine_stop e).2) pre ++ (Engine_stop engine).2 :: post)
  /\ Forall (fun e => running e = false)
       (map (fun e => (Engine_stop e).2) pre)
  /\ running (Engine_stop engine).2 = running engine
  /\ stop_engines pre
     = (Ok tt, map (fun e => (Engine_stop e).2) pre).
Proof.
  intros Hpre Hengine.
  assert (Hfst : forall e, (Engine_stop e).1
                           = if exits_on_quit e then Ok tt
                             else Raise TimeoutExpired).
  { intros e. unfold Engine_stop. by destruct (exits_on_quit e). }
  assert (Hok : stop_engines pre
                = (Ok tt, map (fun e => (Engine_stop e).2) pre)).
  { induction Hpre as [| e pre He _ IH]; [done |].
    cbn [stop_engines map]. specialize (Hfst e). rewrite He in Hfst.
    destruct (Engine_stop e) as [r e']. cbn in Hfst. subst r.
    by rewrite IH. }
  split; [| split; [| split; [| done]]].
  - clear Hok. induction Hpre as [| e pre He _ IH]; cbn [app stop_engines map].
    + specialize (Hfst engine). rewrite Hengine in Hfst.
      destruct (Engine_stop engine) as [r e']. cbn in Hfst. by subst r.
    + specialize (Hfst e). rewrite He in Hfst.
      destruct (Engine_stop e) as [r e']. cbn in Hfst. subst r.
      by rewrite IH.
  - apply Forall_map. eapply Forall_impl; [exact Hpre |].
    intros e He. unfold Engine_stop. by rewrite He.
  - unfold Engine_stop. by rewrite Hengine.
Qed.

(** Three engines, the second of which does not exit on [quit]. *)
Lemma stop_engines_aborts_witness :
  stop_engines ([demo_engine] ++ mkEngine [] [] false true :: [demo_engine])
  = (Raise TimeoutExpired,
     map (fun e => (Engine_stop e).2) [demo_engine]
     ++ (Engine_stop (mkEngine [] [] false true)).2 :: [demo_engine])
  /\ Forall (fun e => running e = false)
       (map (fun e => (Engine_stop e).2) [demo_engine])
  /\ running (Engine_stop (mkEngine [] [] false true)).2
     = running (mkEngine [] [] false true)
  /\ stop_engines [demo_engine]
     = (Ok tt, map (fun e => (Engine_stop e).2) [demo_engine]).
Proof.
  apply (stop_engines_aborts [demo_engine] [demo_engine]
           (mkEngine [] [] false true)).
  - repeat constructor.
  - reflexivity.
Defined.

(** * Reading the corpus *)

Section Slices.

Implicit Types (s t : string).

Lemma string_length_app s t :
  String.length (s ++ t) = (String.length s + String.length t)%nat.
Proof. induction s as [| c s IH]; cbn; [done | by rewrite IH]. Qed.

Lemma substring_all t : String.substring 0 (String.length t) t = t.
Proof. induction t as [| c t IH]; cbn; [done | by rewrite IH]. Qed.

Lemma substring_app_prefix s t :
  String.substring 0 (String.length s) (s ++ t) = s.
Proof. induction s as [| c s IH]; cbn; [by destruct t | by rewrite IH]. Qed.

Lemma substring_app_skip s t (n m : nat) :
  String.substring (String.length s + n) m (s ++ t) = String.substring n m t.
Proof. induction s as [| c s IH]; cbn; [done | by rewrite IH]. Qed.

(** [(s + t)[:-len(t)]] and [(s + t)[-len(t):]] for a [t] that is not
    empty. *)
Lemma str_slice_drop_last s t :
  t <> EmptyString ->
  str_slice (s ++ t) None (Some (- Z.of_nat (String.length t))) = s.
Proof.
  intros Ht. unfold str_slice, Py.slice_bound. rewrite string_length_app.
  assert (0 < String.length t)%nat by (destruct t; [done | cbn; lia]).
  destruct (Z.ltb_spec (- Z.of_nat (String.length t)) 0); [| lia].
  replace (Z.to_nat (Z.max 0 (- Z.of_nat (String.length t)
             + Z.of_nat (String.length s + String.length t)) - 0))
    with (String.length s) by lia.
  apply substring_app_prefix.
Qed.

Lemma str_slice_last s t :
  t <> EmptyString ->
  str_slice (s ++ t) (Some (- Z.of_nat (String.length t))) None = t.
Proof.
  intros Ht. unfold str_slice, Py.slice_bound. rewrite string_length_app.
  assert (0 < String.length t)%nat by (destruct t; [done | cbn; lia]).
  destruct (Z.ltb_spec (- Z.of_nat (String.length t)) 0); [| lia].
  replace (Z.to_nat (Z.max 0 (- Z.of_nat (String.length t)
             + Z.of_nat (String.length s + String.length t))))
    with (String.length s + 0)%nat by lia.
  replace (Z.to_nat (Z.of_nat (String.length s + String.length t)
             - Z.max 0 (- Z.of_nat (String.length t)
                 + Z.of_nat (String.length s + String.length t))))
    with (String.length t) by lia.
  rewrite substring_app_skip. apply substring_all.
Qed.

(** A line that ends in five characters [t5], the last four of which
    are [t4]. *)
Lemma read_fens_line_tail s (c : ascii) t4 :
  String.length t4 = 4%nat ->
  read_fens_line (s ++ String c t4)
  = new_TestPosition s
      (if String.eqb (str_strip t4) "1-0" then 1%float
       else if String.eqb (str_strip t4) "0-1" then 0%float
       else 0.5%float).
Proof.
  intros Hlen. unfold read_fens_line.
  assert (H5 : String.length (String c t4) = 5%nat) by (cbn; lia).
  pose proof (str_slice_drop_last s (String c t4) ltac:(done)) as Hfen.
  rewrite H5 in Hfen. change (- Z.of_nat 5) with (-5) in Hfen. rewrite Hfen.
  assert (Ht4 : t4 <> EmptyString) by (by destruct t4).
  pose proof (str_slice_last (s ++ String c EmptyString) t4 Ht4) as Hres.
  rewrite Hlen in Hres. change (- Z.of_nat 4) with (-4) in Hres.
  rewrite string_app_assoc in Hres. cbn [append] in Hres.
  by rewrite Hres.
Qed.

End Slices.

(** A line of the corpus file in the format of the sample line, the FEN,
    a space, the result [1-0], [0-1] or [1/2], and the line terminator:
    the position has the FEN as it stands, the result 1, 0 or 0.5, and
    score 0. *)
Theorem read_fens_line_terminated (fen : string) :
  read_fens_line (fen ++ " 1-0" ++ PyStr.newline) = mkTestPosition fen 1 0
  /\ read_fens_line (fen ++ " 0-1" ++ PyStr.newline) = mkTestPosition fen 0 0
  /\ read_fens_line (fen ++ " 1/2" ++ PyStr.newline) = mkTestPosition fen 0.5 0.
Proof.
  repeat split; apply (read_fens_line_tail fen " "); reflexivity.
Qed.

(** A last line without a line terminator loses the last character of
    its FEN: the five characters that are cut off are then the result, the
    space before it and the character before that. The result is still
    read. *)
Theorem read_fens_line_unterminated (fen : string) (c : ascii) :
  read_fens_line (fen ++ String c " 1-0") = mkTestPosition fen 1 0
  /\ read_fens_line (fen ++ String c " 0-1") = mkTestPosition fen 0 0
  /\ read_fens_line (fen ++ String c " 1/2") = mkTestPosition fen 0.5 0.
Proof.
  repeat split; apply (read_fens_line_tail fen c); reflexivity.
Qed.

(** Every line of the file yields a position, whatever it holds: there
    are as many positions as lines; each has score 0 and a result of 1, 0
    or 0.5, the last for every line that does not end in [1-0] or [0-1];
    a blank line yields a position with an empty FEN and the result
    0.5. *)
Theorem read_fens_every_line (lines : list string) :
  length (read_fens lines) = length lines
  /\ Forall (fun pos =>
               score pos = 0
               /\ (result pos = 1%float \/ result pos = 0%float
                   \/ result pos = 0.5%float))
       (read_fens lines)
  /\ read_fens (lines ++ [PyStr.newline])
     = read_fens lines ++ [mkTestPosition "" 0.5 0].
Proof.
  split; [apply length_map |]. split.
  - apply Forall_map, Forall_forall. intros line _. unfold read_fens_line.
    cbn [score result new_TestPosition]. split; [done |].
    destruct (String.eqb _ "1-0"); [by left |].
    destruct (String.eqb _ "0-1"); [right; by left | right; by right].
  - unfold read_fens. by rewrite map_app.
Qed.
(** * The tuning options of the configuration and the result file *)

Section WriteOptions.

Implicit Types (results : list TuningEntry) (d : list (string * nat))
  (t : TuningEntry) (o : TuningOption).

Lemma list_names_app results1 results2 :
  list_names (results1 ++ results2)
  = list_names results1 ++ list_names results2.
Proof. apply omap_app. Qed.

Lemma list_names_cons t results :
  list_names (t :: results)
  = match entry_value t with
    | CfgList _ => entry_name t :: list_names results
    | CfgInt _ => list_names results
    end.
Proof. unfold list_names. cbn. by destruct (entry_value t). Qed.

Lemma alter_lookup {A} (f : A -> A) (l : list A) (i : nat) (x : A) :
  l !! i = Some x -> alter f i l = <[i := f x]> l.
Proof.
  intros Hi. rewrite list_insert_alter. apply list_alter_ext; [| done].
  intros y Hy. congruence.
Qed.

(** The options of a list entry, but for their names. *)
Lemma expand_list_parts n (vs : list Z) (g : nat -> string) :
  Forall (fun o => is_part o = true /\ orig_name o = n /\ fresh o)
    (imap (fun index v => new_TuningOption (g index) v true n) vs)
  /\ map value (imap (fun index v => new_TuningOption (g index) v true n) vs)
     = vs.
Proof.
  revert g. induction vs as [| v vs IH]; intros g; [done |].
  cbn [imap map]. destruct (IH (g ∘ S)) as [IH1 IH2].
  split; [constructor; [by repeat split | exact IH1] |].
  cbn [value new_TuningOption]. f_equal. exact IH2.
Qed.

(** Parts of an entry that [result_by_name] knows. *)
Lemma write_parts_at n (parts : list TuningOption) :
  Forall (fun o => is_part o = true /\ orig_name o = n /\ fresh o) parts ->
  forall results d (i : nat) (acc : list Z),
    dict_get d n = Some i ->
    results !! i = Some (mkTuningEntry n (CfgList acc)) ->
    foldl write_option (results, d) parts
    = (<[i := mkTuningEntry n (CfgList (acc ++ map value parts))]> results, d).
Proof.
  induction 1 as [| o parts (Hp & Hn & _) _ IH]; intros results d i acc Hd Hi.
  - cbn. rewrite app_nil_r. by rewrite list_insert_id.
  - cbn [foldl map]. unfold write_option at 2. rewrite Hp, Hn, Hd.
    rewrite (alter_lookup _ _ _ _ Hi).
    unfold append_value. cbn [entry_value entry_name].
    rewrite (IH _ d i (acc ++ [value o]) Hd).
    + by rewrite list_insert_insert_eq, <- app_assoc.
    + apply list_lookup_insert_eq. by eapply lookup_lt_Some.
Qed.

(** The options of one entry, written after the entries [results]. *)
Lemma write_entry results d t :
  entry_value t <> CfgList [] ->
  (forall k i, dict_get d k = Some i -> k ∈ list_names results) ->
  (forall vs, entry_value t = CfgList vs -> entry_name t ∉ list_names results) ->
  exists d',
    foldl write_option (results, d) (expand_entry t) = (results ++ [t], d')
    /\ (forall k i, dict_get d' k = Some i -> k ∈ list_names (results ++ [t]))
    /\ (forall k, k <> entry_name t -> dict_get d' k = dict_get d k)
    /\ (forall vs, entry_value t = CfgList vs ->
                   dict_get d' (entry_name t) = Some (length results))
    /\ (forall v, entry_value t = CfgInt v -> d' = d).
Proof.
  intros Hne Hd Hnew. destruct t as [n [v | vs]]; cbn in *.
  - exists d. unfold expand_entry. cbn. split; [done |].
    split; [| done].
    intros k i Hk. rewrite list_names_app. apply elem_of_app. left. eauto.
  - destruct vs as [| v vs]; [done |].
    exists ((n, length results) :: d). unfold expand_entry.
    cbn [entry_value entry_name imap foldl].
    unfold write_option at 2. cbn [is_part orig_name new_TuningOption value].
    destruct (dict_get d n) as [i |] eqn:Hget.
    { destruct (Hnew (v :: vs) eq_refl). eauto. }
    destruct (expand_list_parts n vs
                ((fun index => (n ++ PyStr.of_int (Z.of_nat index))%string) ∘ S))
      as [Hparts Hvalues].
    split; [| split; [| split; [| split; [| done]]]].
    + rewrite (write_parts_at n _ Hparts _ _ (length results) [v]).
      * rewrite Hvalues.
        replace (length results) with (length results + 0)%nat at 1 by lia.
        by rewrite insert_app_r.
      * cbn. by rewrite String.eqb_refl.
      * rewrite lookup_app_r by lia. by rewrite Nat.sub_diag.
    + intros k i. cbn [dict_get].
      rewrite list_names_app. cbn. rewrite elem_of_app.
      destruct (String.eqb_spec n k) as [<- | Hnk].
      * intros _. right. apply list_elem_of_singleton. done.
      * intros Hk. left. eauto.
    + intros k Hk. cbn [dict_get].
      by destruct (String.eqb_spec n k) as [<- | _].
    + intros _ _. cbn. by rewrite String.eqb_refl.
Qed.

(** The options of a list of entries, written after the entries
    [results]. *)
Lemma write_entries entries :
  forall results d,
    NoDup (list_names (results ++ entries)) ->
    Forall (fun t => entry_value t <> CfgList []) entries ->
    (forall k i, dict_get d k = Some i -> k ∈ list_names results) ->
    exists d',
      foldl write_option (results, d) (concat (map expand_entry entries))
      = (results ++ entries, d')
      /\ (forall k i, dict_get d' k = Some i ->
                      k ∈ list_names (results ++ entries))
      /\ (forall k, k ∉ list_names entries -> dict_get d' k = dict_get d k).
Proof.
  induction entries as [| t entries IH]; intros results d Hnd Hne Hd.
  - exists d. cbn. by rewrite app_nil_r.
  - apply Forall_cons in Hne as [Ht Hne].
    cbn [map concat]. rewrite foldl_app.
    destruct (write_entry results d t Ht Hd)
      as (d1 & -> & Hd1 & Hsame & _ & Hint).
    { intros vs Hvs. rewrite list_names_app in Hnd.
      apply NoDup_app in Hnd as (_ & Hdisj & _).
      intros Hin. apply (Hdisj _ Hin).
      rewrite list_names_cons, Hvs. apply list_elem_of_here. }
    destruct (IH (results ++ [t]) d1) as (d' & -> & Hd' & Hsame');
      [by rewrite <- app_assoc | done | done |].
    exists d'. rewrite <- !app_assoc. cbn [app]. split; [done |].
    split; [by intros k i; rewrite <- app_assoc in Hd'; apply Hd' |].
    intros k Hk.
    assert (Hk' : k ∉ list_names entries).
    { intros Hin. apply Hk. rewrite list_names_cons.
      destruct (entry_value t); [done | by apply list_elem_of_further]. }
    rewrite Hsame' by done.
    destruct (String.eqb_spec k (entry_name t)) as [-> | Hne'];
      [| by apply Hsame].
    destruct (entry_value t) as [v | vs] eqn:Hv.
    + by rewrite (Hint v eq_refl).
    + destruct Hk. rewrite list_names_cons, Hv. apply list_elem_of_here.
Qed.

End WriteOptions.
(** Reading the tuning entries and writing the options back is the
    identity: when no two list entries of the configuration have the same
    name and no list is empty, the result file that [write_options] makes
    of the options of [Config] holds the entries of the configuration, in
    their order, each list in its order. *)
Theorem write_options_round_trip (entries : list TuningEntry) :
  NoDup (list_names entries) ->
  Forall (fun t => entry_value t <> CfgList []) entries ->
  write_options (config_tuning_options (Some entries)) = entries.
Proof.
  intros Hnd Hne. unfold write_options, config_tuning_options.
  destruct (write_entries entries [] [] Hnd Hne) as (d' & -> & _); done.
Qed.

(** A list of three values, a single value, and another list. *)
Lemma write_options_round_trip_witness :
  write_options
    (config_tuning_options
       (Some [mkTuningEntry "PawnTable" (CfgList [10; -20; 30]);
              mkTuningEntry "Tempo" (CfgInt 8);
              mkTuningEntry "Mobility" (CfgList [4])]))
  = [mkTuningEntry "PawnTable" (CfgList [10; -20; 30]);
     mkTuningEntry "Tempo" (CfgInt 8);
     mkTuningEntry "Mobility" (CfgList [4])].
Proof.
  apply (write_options_round_trip
           [mkTuningEntry "PawnTable" (CfgList [10; -20; 30]);
            mkTuningEntry "Tempo" (CfgInt 8);
            mkTuningEntry "Mobility" (CfgList [4])]).
  - vm_compute. apply NoDup_cons. split; [| apply NoDup_singleton].
    intros H%list_elem_of_singleton. discriminate.
  - repeat constructor; discriminate.
Defined.

(** Entries that do not come back as they were. Two list entries of the
    same name come back as one entry, at the place of the first, that
    holds the values of both, whatever lies between them; and an entry
    with an empty list makes no option at all, so that nothing of it
    reaches the result file. *)
Theorem write_options_merges (n : string) (v : Z) (vs ws : list Z)
    (between : list TuningEntry) :
  NoDup (n :: list_names between) ->
  Forall (fun t => entry_value t <> CfgList []) between ->
  write_options
    (config_tuning_options
       (Some (mkTuningEntry n (CfgList (v :: vs)) :: between
              ++ [mkTuningEntry n (CfgList ws)])))
  = mkTuningEntry n (CfgList (v :: vs ++ ws)) :: between
  /\ (forall before after,
        config_tuning_options
          (Some (before ++ mkTuningEntry n (CfgList []) :: after))
        = config_tuning_options (Some (before ++ after))).
Proof.
  intros Hnd Hne. split.
  - unfold write_options, config_tuning_options.
    rewrite map_cons, map_app, concat_cons, concat_app, !foldl_app.
    destruct (write_entry [] [] (mkTuningEntry n (CfgList (v :: vs))))
      as (d1 & -> & Hd1 & _ & Hn1 & _);
      [done | done | by intros; apply not_elem_of_nil |].
    specialize (Hn1 _ eq_refl). cbn in Hn1. cbn [app].
    destruct (write_entries between [mkTuningEntry n (CfgList (v :: vs))] d1)
      as (d2 & -> & _ & Hsame); [done | done | done |].
    apply NoDup_cons in Hnd as [Hn _].
    rewrite <- (Hsame n Hn) in Hn1.
    cbn [map concat app]. rewrite app_nil_r. unfold expand_entry.
    cbn [entry_value entry_name].
    destruct (expand_list_parts n ws
                (fun index => (n ++ PyStr.of_int (Z.of_nat index))%string))
      as [Hparts Hvalues].
    rewrite (write_parts_at n _ Hparts
               (mkTuningEntry n (CfgList (v :: vs)) :: between) d2 0%nat
               (v :: vs) Hn1 eq_refl).
    by rewrite Hvalues.
  - intros before after. unfold config_tuning_options.
    by rewrite !map_app, !concat_app.
Qed.

(** Two lists named [PawnTable] with a single value between them. *)
Lemma write_options_merges_witness :
  write_options
    (config_tuning_options
       (Some (mkTuningEntry "PawnTable" (CfgList (10 :: [-20]))
              :: [mkTuningEntry "Tempo" (CfgInt 8)]
              ++ [mkTuningEntry "PawnTable" (CfgList [30])])))
  = mkTuningEntry "PawnTable" (CfgList (10 :: [-20] ++ [30]))
    :: [mkTuningEntry "Tempo" (CfgInt 8)]
  /\ (forall before after,
        config_tuning_options
          (Some (before ++ mkTuningEntry "PawnTable" (CfgList []) :: after))
        = config_tuning_options (Some (before ++ after))).
Proof.
  apply (write_options_merges "PawnTable" 10 [-20] [30]
           [mkTuningEntry "Tempo" (CfgInt 8)]).
  - vm_compute. apply NoDup_singleton.
  - repeat constructor; discriminate.
Defined.

(** Every option that [Config] makes is fresh, whatever the entries
    are: step 16, direction 1, no improvement, no iteration, no skip. The
    state in which [main] enters the search loop is therefore a state of
    the transition system, for every configuration. A single value makes
    one option of the entry's name; the value at place [index] of a list
    makes a part whose name is the entry's name followed by [index]. *)
Theorem config_options_fresh {World : Type}
    (run_pass : list TuningOption -> World -> Result float * World)
    (tuning_cfg : option (list TuningEntry)) (err : float) (w : World) :
  Forall fresh (config_tuning_options tuning_cfg)
  /\ reachable run_pass (init_tuner (config_tuning_options tuning_cfg) err w)
  /\ (forall entries t,
        tuning_cfg = Some entries -> t ∈ entries ->
        match entry_value t with
        | CfgInt v =>
            new_TuningOption (entry_name t) v false ""
            ∈ config_tuning_options tuning_cfg
        | CfgList vs =>
            forall index v,
              vs !! index = Some v ->
              new_TuningOption
                (entry_name t ++ PyStr.of_int (Z.of_nat index)) v true
                (entry_name t)
              ∈ config_tuning_options tuning_cfg
        end).
Proof.
  assert (Hfresh : Forall fresh (config_tuning_options tuning_cfg)).
  { destruct tuning_cfg as [entries |]; [| constructor].
    cbn. apply Forall_concat, Forall_map, Forall_forall. intros t _.
    unfold expand_entry. destruct (entry_value t) as [v | vs].
    - by repeat constructor.
    - eapply Forall_impl;
        [apply (expand_list_parts (entry_name t) vs) | by intros o (_ & _ & H)]. }
  split; [done |]. split; [by apply reach_init |].
  intros entries t -> Ht. cbn.
  assert (Hin : forall o, o ∈ expand_entry t ->
                          o ∈ concat (map expand_entry entries)).
  { intros o Ho. apply list_elem_of_In, in_concat. exists (expand_entry t).
    split; [apply in_map; by apply list_elem_of_In | by apply list_elem_of_In]. }
  unfold expand_entry in Hin. destruct (entry_value t) as [v | vs].
  - apply Hin, list_elem_of_here.
  - intros index v Hv. apply Hin.
    apply (list_elem_of_lookup_2 _ index). rewrite list_lookup_imap, Hv. done.
Qed.

